(** * VICAPTCHA: image-selection CAPTCHA with a proof-of-work token

    A shallow embedding of [pycap.py] (the proof-of-work provider) and of the
    request handlers of [server.py] ([api_captcha], [api_verify],
    [api_check]), followed by the properties of the challenge lifecycle.

    Conventions.
    - Python [str] values are byte strings ([string]); [s.encode("utf-8")]
      is the list of their bytes.
    - Python [int] is [Z] where the code subtracts or compares, [nat] for
      lengths.  Timestamps ([time.time()], a float) are the rationals they
      denote; comparing them is exact.  The one float operation of the
      program, [time.time() + self._ttl], is the binary64 addition of the
      Standard Library's [SpecFloat].
    - The module-level dictionary [ACTIVE_CHALLENGES] is threaded through the
      handlers as a [gmap]; Python [set]s of image ids are [gset]s.
    - [random], [uuid] and [secrets] read from an explicit entropy source
      threaded by a small state-and-exception monad. *)

From stdpp Require Import base numbers list strings gmap sets pretty.
From Stdlib Require Import NArith ZArith QArith Ascii SpecFloat.

Close Scope Q_scope.

(** ** SHA-256 ([hashlib.sha256]), FIPS 180-4, on 32-bit words held in [N] *)

Module SHA256.
Local Open Scope N_scope.

Definition mask32 : N := 0xFFFFFFFF.
Definition add32 (x y : N) : N := N.land (x + y) mask32.
Definition rotr (n x : N) : N :=
  N.lor (N.shiftr x n) (N.land (N.shiftl x (32 - n)) mask32).
Definition not32 (x : N) : N := N.lxor x mask32.
Definition Ch (x y z : N) : N := N.lxor (N.land x y) (N.land (not32 x) z).
Definition Maj (x y z : N) : N :=
  N.lxor (N.lxor (N.land x y) (N.land x z)) (N.land y z).
Definition bsig0 (x : N) : N := N.lxor (N.lxor (rotr 2 x) (rotr 13 x)) (rotr 22 x).
Definition bsig1 (x : N) : N := N.lxor (N.lxor (rotr 6 x) (rotr 11 x)) (rotr 25 x).
Definition ssig0 (x : N) : N := N.lxor (N.lxor (rotr 7 x) (rotr 18 x)) (N.shiftr x 3).
Definition ssig1 (x : N) : N := N.lxor (N.lxor (rotr 17 x) (rotr 19 x)) (N.shiftr x 10).

(** The round constants are the first 32 bits of the fractional parts of
    the cube roots of the first 64 primes, the initial hash value those of
    the square roots of the first 8 primes. *)
Definition is_prime (n : nat) : bool :=
  forallb (λ d, negb (n `mod` d =? 0)%nat) (seq 2 (n - 2)).

Definition primes64 : list N :=
  N.of_nat <$> take 64 (filter (λ n, is_prime n = true) (seq 2 310)).

(** The largest [r] below [2 ^ bits] with [r ^ 3 <= x], bit by bit. *)
Fixpoint cube_root (bits : nat) (x r : N) : N :=
  match bits with
  | O => r
  | S b =>
      let r' := r + N.shiftl 1 (N.of_nat b) in
      cube_root b x (if r' * r' * r' <=? x then r' else r)
  end.

Definition frac32_cbrt (p : N) : N :=
  N.land (cube_root 35 (N.shiftl p 96) 0) mask32.
Definition frac32_sqrt (p : N) : N :=
  N.land (N.sqrt (N.shiftl p 64)) mask32.

Definition K : list N := Eval vm_compute in frac32_cbrt <$> primes64.
Definition IV : list N := Eval vm_compute in frac32_sqrt <$> take 8 primes64.

(* big-endian bytes of [x], [n] of them *)
Fixpoint be_bytes (n : nat) (x : N) : list N :=
  match n with
  | O => []
  | S n' => N.land (N.shiftr x (8 * N.of_nat n')) 0xFF :: be_bytes n' x
  end.

Definition pad (msg : list N) : list N :=
  let L := N.of_nat (length msg) in
  let z := (119 - L mod 64) mod 64 in
  msg ++ [0x80] ++ replicate (N.to_nat z) 0 ++ be_bytes 8 (8 * L).

Fixpoint words (fuel : nat) (bs : list N) : list N :=
  match fuel, bs with
  | S f, b0 :: b1 :: b2 :: b3 :: rest =>
      (N.shiftl b0 24 + N.shiftl b1 16 + N.shiftl b2 8 + b3) :: words f rest
  | _, _ => []
  end.

Fixpoint blocks (fuel : nat) (ws : list N) : list (list N) :=
  match fuel, ws with
  | S f, _ :: _ => take 16 ws :: blocks f (drop 16 ws)
  | _, _ => []
  end.

Fixpoint schedule (n : nat) (w : list N) : list N :=
  match n with
  | O => w
  | S n' =>
      let t := length w in
      let at_ (i : nat) := nth (t - i) w 0 in
      schedule n' (w ++ [add32 (add32 (ssig1 (at_ 2%nat)) (at_ 7%nat))
                               (add32 (ssig0 (at_ 15%nat)) (at_ 16%nat))])
  end.

Record regs := Regs { ra : N; rb : N; rc : N; rd : N; re : N; rf : N; rg : N; rh : N }.

Definition round (s : regs) (kw : N * N) : regs :=
  let t1 := add32 (add32 (add32 (rh s) (bsig1 (re s))) (Ch (re s) (rf s) (rg s)))
                  (add32 kw.1 kw.2) in
  let t2 := add32 (bsig0 (ra s)) (Maj (ra s) (rb s) (rc s)) in
  Regs (add32 t1 t2) (ra s) (rb s) (rc s) (add32 (rd s) t1) (re s) (rf s) (rg s).

Definition of_list (h : list N) : regs :=
  Regs (nth 0 h 0) (nth 1 h 0) (nth 2 h 0) (nth 3 h 0)
       (nth 4 h 0) (nth 5 h 0) (nth 6 h 0) (nth 7 h 0).
Definition to_list (s : regs) : list N :=
  [ra s; rb s; rc s; rd s; re s; rf s; rg s; rh s].

Definition compress (h : list N) (block : list N) : list N :=
  let s := foldl round (of_list h) (zip K (schedule 48 block)) in
  zip_with add32 h (to_list s).

Definition digest (msg : list N) : list N :=
  let p := pad msg in
  let h := foldl compress IV (blocks (length p) (words (length p) p)) in
  flat_map (be_bytes 4) h.

Definition hex_digit (n : N) : ascii :=
  ascii_of_N (if n <? 10 then 48 + n else 87 + n).

Fixpoint hex (bs : list N) : string :=
  match bs with
  | [] => EmptyString
  | b :: bs' => String (hex_digit (N.shiftr b 4)) (String (hex_digit (N.land b 0xF)) (hex bs'))
  end.

Definition bytes_of_string (s : string) : list N :=
  map N_of_ascii (String.list_ascii_of_string s).

Definition hexdigest (s : string) : string := hex (digest (bytes_of_string s)).
End SHA256.

(** ** Effects: randomness, fresh identifiers, exceptions *)

Module Effects.

(** The entropy source: three streams with a read position each.
    [rand] feeds the [random] module, [uuid] is the sequence of values
    returned by [uuid.uuid4()] (as strings), [token] the sequence returned
    by [secrets.token_hex]. *)
Record Entropy := {
  rand : nat → nat;  rand_pos : nat;
  uuid : nat → string;  uuid_pos : nat;
  token : nat → string;  token_pos : nat
}.

Inductive result (A : Type) : Type :=
  | Ok (a : A)
  | Raise (exn : string).
Global Arguments Ok {A} a.
Global Arguments Raise {A} exn.

Definition M (A : Type) : Type := Entropy → result (A * Entropy).

Global Instance M_ret : MRet M := λ A a e, Ok (a, e).
Global Instance M_bind : MBind M := λ A B f m e,
  match m e with
  | Ok (a, e') => f a e'
  | Raise exn => Raise exn
  end.

Definition raise {A} (exn : string) : M A := λ _, Raise exn.

Definition draw : M nat := λ e,
  Ok (rand e (rand_pos e),
      {| rand := rand e; rand_pos := S (rand_pos e);
         uuid := uuid e; uuid_pos := uuid_pos e;
         token := token e; token_pos := token_pos e |}).

(** [str(uuid.uuid4())] *)
Definition uuid4 : M string := λ e,
  Ok (uuid e (uuid_pos e),
      {| rand := rand e; rand_pos := rand_pos e;
         uuid := uuid e; uuid_pos := S (uuid_pos e);
         token := token e; token_pos := token_pos e |}).

(** [secrets.token_hex(nbytes)] *)
Definition token_hex (nbytes : nat) : M string := λ e,
  Ok (token e (token_pos e),
      {| rand := rand e; rand_pos := rand_pos e;
         uuid := uuid e; uuid_pos := uuid_pos e;
         token := token e; token_pos := S (token_pos e) |}).

(** [random.randint(a, b)]: an integer in [a..b]; [ValueError] on an empty
    range. *)
Definition randint (a b : Z) : M Z :=
  if decide (b < a)%Z then raise "ValueError"
  else r ← draw; mret (a + Z.of_nat r `mod` (b - a + 1))%Z.

(** [random.choice(seq)]: [IndexError] on an empty sequence. *)
Definition choice {A} (seq : list A) : M A :=
  r ← draw;
  match seq !! (r `mod` length seq) with
  | Some x => mret x
  | None => raise "IndexError"
  end.

(** [k] elements at pairwise distinct positions of [population], in the
    order drawn. *)
Fixpoint pick {A} (k : nat) (population : list A) : M (list A) :=
  match k with
  | O => mret []
  | S k' =>
      r ← draw;
      let i := r `mod` length population in
      match population !! i with
      | Some x => rest ← pick k' (delete i population); mret (x :: rest)
      | None => raise "ValueError"
      end
  end.

(** [random.sample(population, k)]: [ValueError] when [k] is negative or
    larger than the population. *)
Definition sample {A} (population : list A) (k : Z) : M (list A) :=
  if decide (0 ≤ k ≤ Z.of_nat (length population))%Z
  then pick (Z.to_nat k) population
  else raise "ValueError".

(** [random.shuffle(x)]; the shuffled list is returned instead of being
    written in place. *)
Definition shuffle {A} (x : list A) : M (list A) := pick (length x) x.

End Effects.

(** ** Python string helpers *)

Fixpoint str_repeat (s : string) (n : nat) : string :=
  match n with
  | O => ""
  | S n' => s +:+ str_repeat s n'
  end.

(** [s * n]: the empty string when [n <= 0]. *)
Definition str_mul (s : string) (n : Z) : string := str_repeat s (Z.to_nat n).

(** [s.startswith(p)] *)
Definition startswith (s p : string) : bool := String.prefix p s.

(** Number of ['0'] characters at the front of [s]. *)
Fixpoint leading_zeros (s : string) : nat :=
  match s with
  | String "0" s' => S (leading_zeros s')
  | _ => O
  end.

(** [x > y] on timestamps *)
Definition Qgtb (x y : Q) : bool := negb (Qle_bool x y).

(** ** Python floats: IEEE 754 binary64 *)

Module Float64.

Definition prec : Z := 53.
Definition emax : Z := 1024.

(** [float(n)] for an [int]. *)
Definition of_Z (n : Z) : spec_float := binary_normalize prec emax n 0 false.

(** [Some k] when [p = 2 ^ k]. *)
Fixpoint pow2_exponent (p : positive) : option Z :=
  match p with
  | xH => Some 0%Z
  | xO p' => Z.succ <$> pow2_exponent p'
  | xI _ => None
  end.

(** The double a rational clock value stands for.  A double is a dyadic
    rational [n / 2 ^ k] and is returned as it is; any other rational is
    rounded to the nearest double. *)
Definition of_Q (q : Q) : spec_float :=
  match pow2_exponent (Qden q) with
  | Some k => binary_normalize prec emax (Qnum q) (- k) false
  | None => SFdiv prec emax (of_Z (Qnum q)) (of_Z (Zpos (Qden q)))
  end.

(** The rational a double denotes.  An infinity or NaN, which a sum needs
    operands beyond the double range to reach, is given the bound
    [2 ^ 1024] of that range, so that comparing it with a double answers
    as Python does. *)
Definition to_Q (x : spec_float) : Q :=
  match x with
  | S754_zero _ => 0%Q
  | S754_finite s m e => (inject_Z (cond_Zopp s (Zpos m)) * Qpower 2 e)%Q
  | S754_infinity true => (- Qpower 2 emax)%Q
  | _ => Qpower 2 emax
  end.

(** [x + n] for a float [x] and an [int] [n]. *)
Definition add_int (x : Q) (n : Z) : Q :=
  to_Q (SFadd prec emax (of_Q x) (of_Z n)).

End Float64.

(** ** pycap.py *)

Module PyCap.
Import Effects.

Record Challenge := {
  challenge : string;
  difficulty : Z;
  expires_at : Q
}.

(** An instance of the class [PyCap]: its two private attributes. *)
Record PyCap := {
  _difficulty : Z;
  _ttl : Z
}.

Definition issue (self : PyCap) (now : Q) : M Challenge :=
  tok ← token_hex 16;
  mret {| challenge := tok;
          difficulty := _difficulty self;
          expires_at := Float64.add_int now (_ttl self) |}.

Definition _hash (s : string) : string := SHA256.hexdigest s.

(** [now] is the value of [time.time()] read by the call. *)
Definition verify (self : PyCap) (now : Q) (ch : Challenge) (nonce : string)
    : bool * string :=
  if Qgtb now (expires_at ch) then (false, "Challenge expired")
  else
    let digest := _hash (challenge ch +:+ ":" +:+ nonce) in
    if negb (startswith digest (str_mul "0" (difficulty ch)))
    then (false, "Insufficient PoW difficulty")
    else (true, "ok").

End PyCap.

(** ** server.py *)

Module Server.
Import Effects.

(** A value of [ACTIVE_CHALLENGES]:
    [{"correct_ids": ..., "pow_challenge": ..., "difficulty": ...}]. *)
Record PuzzleRecord := {
  correct_ids : gset string;
  pow_challenge : string;
  difficulty : Z
}.

Abbreviation Store := (gmap string PuzzleRecord).

(** The JSON body of a POST, [request.get_json(silent=True) or {}], with
    the three fields the handlers read: [captcha_id] is [None] when the key
    is absent, [selected_ids] is [data.get("selected_ids") or []], and
    [nonce] is [data["pow"]["nonce"]] when both keys are present.  Ids and
    nonces are strings. *)
Record RequestData := {
  captcha_id : option string;
  selected_ids : list string;
  nonce : option string
}.

(** [{"success": ...}] with status 200, or
    [{"success": False, "error": ...}] with status 400. *)
Inductive VerifyResponse :=
  | VerifyResult (success : bool)
  | VerifyError (error : string).

Record PowBlock := {
  pow_block_challenge : string;
  pow_block_difficulty : Z;
  algo : string
}.

Record CheckResponse := {
  valid : bool;
  correct : bool;
  check_error : option string;
  check_pow : option PowBlock
}.

Definition count_mismatch (expected got : nat) : string :=
  "Must select exactly " +:+ pretty expected +:+ " images, got "
    +:+ pretty got +:+ ".".

Section Handlers.

(** The module constant [DEFAULT_DIFFICULTY]; the demo sets it to 5
    ([DEMO_DIFFICULTY] below).  It is kept a parameter so that statements
    about other difficulties are about challenges the server can issue. *)
Variable DEFAULT_DIFFICULTY : Z.

Definition PY_CAP : PyCap.PyCap :=
  {| PyCap._difficulty := DEFAULT_DIFFICULTY; PyCap._ttl := 180 |}.

Definition _make_pow_challenge (now : Q) : M (string * Z) :=
  ch ← PyCap.issue PY_CAP now;
  mret (PyCap.challenge ch, PyCap.difficulty ch).

Definition api_verify (now : Q) (data : RequestData) (σ : Store)
    : VerifyResponse * Store :=
  let selected : gset string := list_to_set (selected_ids data) in
  match captcha_id data with
  | None => (VerifyError "Invalid or expired captcha.", σ)
  | Some cid =>
      if bool_decide (cid = "") then (VerifyError "Invalid or expired captcha.", σ)
      else
        match σ !! cid with
        | None => (VerifyError "Invalid or expired captcha.", σ)
        | Some record =>
            let difficulty :=
              if bool_decide (difficulty record = 0%Z) then DEFAULT_DIFFICULTY
              else difficulty record in
            if negb (bool_decide (size selected = size (correct_ids record)))
            then (VerifyError
                    (count_mismatch (size (correct_ids record)) (size selected)), σ)
            else
              let nonce := default "" (nonce data) in
              if bool_decide (nonce = "") then (VerifyError "Missing PoW nonce.", σ)
              else
                let ch := {| PyCap.challenge := pow_challenge record;
                             PyCap.difficulty := difficulty;
                             PyCap.expires_at := (9999999999 # 1)%Q |} in
                let '(ok, err) := PyCap.verify PY_CAP now ch nonce in
                if negb ok then (VerifyError err, σ)
                else
                  (VerifyResult (bool_decide (selected = correct_ids record)),
                   delete cid σ)
        end
  end.

Definition check_invalid : CheckResponse :=
  {| valid := false; correct := false;
     check_error := Some "Invalid or expired captcha."; check_pow := None |}.

Definition api_check (data : RequestData) (σ : Store) : CheckResponse * Store :=
  let selected : gset string := list_to_set (selected_ids data) in
  match captcha_id data with
  | None => (check_invalid, σ)
  | Some cid =>
      if bool_decide (cid = "") then (check_invalid, σ)
      else
        match σ !! cid with
        | None => (check_invalid, σ)
        | Some record =>
            ({| valid := true;
                correct := bool_decide (selected = correct_ids record);
                check_error := None;
                check_pow := Some {| pow_block_challenge := pow_challenge record;
                                     pow_block_difficulty := difficulty record;
                                     algo := "sha256-prefix-zeros" |} |}, σ)
        end
  end.

(** *** Issuance *)

(** The result of [_discover_categories]: a dictionary in insertion order. *)
Definition Catalog : Type := list (string * list string).

(** [categories[name]] *)
Fixpoint dict_get (categories : Catalog) (name : string) : option (list string) :=
  match categories with
  | [] => None
  | (cat, files) :: rest =>
      if decide (cat = name) then Some files else dict_get rest name
  end.

(** An element of the [images] list: [{"id": ..., "url": ...}]. *)
Record Image := { id : string; url : string }.

Definition image_url (cat f : string) : string :=
  "/images/" +:+ cat +:+ "/" +:+ f.

(** One turn of either loop that fills [images]. *)
Definition make_image (cf : string * string) : M Image :=
  img_id ← uuid4;
  mret {| id := img_id; url := image_url cf.1 cf.2 |}.

(** The pairs collected by the loop over [categories.items()]. *)
Definition non_target_of (categories : Catalog) (target_category : string)
    : list (string * string) :=
  categories ≫= λ cf,
    if decide (cf.1 = target_category) then [] else pair cf.1 <$> cf.2.

Definition len {A} (l : list A) : Z := Z.of_nat (length l).

(** The local variables of [api_captcha] when it reaches the store update. *)
Record Puzzle := {
  target_category : string;
  select_count : Z;
  target_files : list string;
  fill : list (string * string);
  images : list Image;
  puzzle_correct_ids : gset string;
  puzzle_id : string;
  puzzle_pow_challenge : string;
  puzzle_difficulty : Z
}.

(** Lines 73-131 of [api_captcha]: everything between the empty-catalog
    test and the store update. *)
Definition build_puzzle (categories : Catalog) (now : Q) : M Puzzle :=
  let category_names := categories.*1 in
  target_category ← choice category_names;
  match dict_get categories target_category with
  | None => raise "KeyError"
  | Some files =>
      let max_correct_possible := Z.min (Z.min 4 (len files)) 6 in
      let min_correct_required :=
        if decide (2 ≤ max_correct_possible)%Z then 2%Z else 1%Z in
      select_count ← randint min_correct_required max_correct_possible;
      target_files ← sample files (Z.min select_count (len files));
      let non_target := non_target_of categories target_category in
      let needed_non_target := (6 - len target_files)%Z in
      fill ←
        (if decide (len non_target < needed_non_target)%Z then
           extra ← sample (filter (λ f, f ∉ target_files) files)
                          (Z.min needed_non_target
                             (Z.max 0 (len files - len target_files)));
           mret (pair target_category <$> extra)
         else sample non_target needed_non_target);
      target_images ← mapM make_image (pair target_category <$> target_files);
      let correct_ids : gset string := list_to_set (id <$> target_images) in
      fill_images ← mapM make_image fill;
      images ← shuffle (target_images ++ fill_images);
      captcha_id ← uuid4;
      '(pow_challenge, difficulty) ← _make_pow_challenge now;
      mret {| target_category := target_category;
              select_count := select_count;
              target_files := target_files;
              fill := fill;
              images := images;
              puzzle_correct_ids := correct_ids;
              puzzle_id := captcha_id;
              puzzle_pow_challenge := pow_challenge;
              puzzle_difficulty := difficulty |}
  end.

(** The JSON answer of [api_captcha]; the [prompt] text is left out. *)
Record CaptchaBody := {
  body_captcha_id : string;
  body_select_count : Z;
  body_images : list Image;
  body_pow : PowBlock
}.

Inductive CaptchaResponse :=
  | CaptchaOk (body : CaptchaBody)
  | CaptchaError (error : string).

Definition record_of (p : Puzzle) : PuzzleRecord :=
  {| correct_ids := puzzle_correct_ids p;
     pow_challenge := puzzle_pow_challenge p;
     difficulty := puzzle_difficulty p |}.

Definition body_of (p : Puzzle) : CaptchaBody :=
  {| body_captcha_id := puzzle_id p;
     body_select_count := len (target_files p);
     body_images := images p;
     body_pow := {| pow_block_challenge := puzzle_pow_challenge p;
                    pow_block_difficulty := puzzle_difficulty p;
                    algo := "sha256-prefix-zeros" |} |}.

Definition api_captcha (categories : Catalog) (now : Q) (σ : Store)
    : M (CaptchaResponse * Store) :=
  match categories with
  | [] => mret (CaptchaError "No categories with images found.", σ)
  | _ =>
      p ← build_puzzle categories now;
      mret (CaptchaOk (body_of p), <[puzzle_id p := record_of p]> σ)
  end.

End Handlers.

Definition DEMO_DIFFICULTY : Z := 5.

End Server.

(** ** server.py: the directory scan and the prompt *)

Module Scan.
Import Server.

(** The two queries [_discover_categories] makes of the file system.
    [listdir] gives the names in a directory, in the order the system
    reports them; listing a path for which [isdir] holds succeeds. *)
Record FileSystem := {
  isdir : string → bool;
  listdir : string → list string
}.

Fixpoint ends_with_slash (s : string) : bool :=
  match s with
  | "" => false
  | String c "" => bool_decide (c = "/"%char)
  | String _ s' => ends_with_slash s'
  end.

(** [os.path.join(a, b)] (posixpath). *)
Definition path_join (a b : string) : string :=
  if startswith b "/" then b
  else if bool_decide (a = "") || ends_with_slash a then a +:+ b
  else a +:+ "/" +:+ b.

Fixpoint rfind_from (c : ascii) (s : string) (i last : Z) : Z :=
  match s with
  | "" => last
  | String a s' =>
      rfind_from c s' (i + 1) (if Ascii.ascii_dec a c then i else last)
  end.

(** [s.rfind(c)]: the highest index of [c], or -1. *)
Definition rfind (c : ascii) (s : string) : Z := rfind_from c s 0 (-1).

(** [p[i:i+1] != "."] *)
Definition not_dot_at (p : string) (i : Z) : bool :=
  match String.get (Z.to_nat i) p with
  | Some c => negb (bool_decide (c = "."%char))
  | None => true
  end.

(** [os.path.splitext(p)[1]]: the text from the last dot of the last path
    component on, unless that component has nothing but dots before it. *)
Definition splitext_ext (p : string) : string :=
  let sepIndex := rfind "/" p in
  let dotIndex := rfind "." p in
  if decide (sepIndex < dotIndex)%Z then
    if existsb (not_dot_at p) (seqZ (sepIndex + 1) (dotIndex - (sepIndex + 1)))
    then String.substring (Z.to_nat dotIndex)
           (String.length p - Z.to_nat dotIndex) p
    else ""
  else "".

Definition ascii_lower (c : ascii) : ascii :=
  let n := nat_of_ascii c in
  if (65 <=? n)%nat && (n <=? 90)%nat then ascii_of_nat (n + 32) else c.

(** [s.lower()] on the letters A-Z; the bytes of other characters are
    kept, which gives the same answer to the membership test below: no
    character outside A-Z lowers to a letter of the four extensions. *)
Fixpoint str_lower (s : string) : string :=
  match s with
  | "" => ""
  | String c s' => String (ascii_lower c) (str_lower s')
  end.

Definition IMAGE_EXTENSIONS : list string := [".png"; ".jpg"; ".jpeg"; ".webp"].

Definition is_image_name (f : string) : bool :=
  bool_decide (str_lower (splitext_ext f) ∈ IMAGE_EXTENSIONS).

(** [categories[k] = v]: an existing key keeps its place, a new one goes
    last. *)
Fixpoint dict_set (categories : Catalog) (k : string) (v : list string)
    : Catalog :=
  match categories with
  | [] => [(k, v)]
  | (k', v') :: rest =>
      if decide (k' = k) then (k, v) :: rest
      else (k', v') :: dict_set rest k v
  end.

(** One turn of the loop over [os.listdir(root_dir)]. *)
Definition scan_entry (fs : FileSystem) (root_dir : string)
    (categories : Catalog) (entry : string) : Catalog :=
  let category_path := path_join root_dir entry in
  if negb (isdir fs category_path) then categories
  else
    let files := filter (λ f, is_image_name f = true) (listdir fs category_path) in
    match files with
    | [] => categories
    | _ => dict_set categories entry files
    end.

Definition _discover_categories (fs : FileSystem) (root_dir : string) : Catalog :=
  if negb (isdir fs root_dir) then []
  else foldl (scan_entry fs root_dir) [] (listdir fs root_dir).

(** [s.replace(old, new)] for a non-empty [old], scanning from the left;
    [skip] counts the characters of a match still to be passed over. *)
Fixpoint replace_from (old new s : string) (skip : nat) : string :=
  match s with
  | "" => ""
  | String c s' =>
      match skip with
      | S k => replace_from old new s' k
      | O =>
          if startswith s old
          then new +:+ replace_from old new s' (String.length old - 1)
          else String c (replace_from old new s' 0)
      end
  end.

(** [s.replace("", new)] puts [new] before every character and at the
    end. *)
Fixpoint replace_empty (new s : string) : string :=
  match s with
  | "" => new
  | String c s' => new +:+ String c (replace_empty new s')
  end.

Definition str_replace (s old new : string) : string :=
  match old with
  | "" => replace_empty new s
  | _ => replace_from old new s 0
  end.

(** The label and the [prompt] field built by [api_captcha] for the target
    category. *)
Definition display_label (target_category : string) : string :=
  str_replace (str_replace target_category "_illusion" "") "_" " ".

Definition prompt (target_category : string) : string :=
  "Which images contain " +:+ display_label target_category +:+ "?".

End Scan.

(** ** Concrete inputs used by the examples below *)

Module Demo.
Import Effects Server.

(** Entropy: the [random] draws are 1, 0, 5, 7, 3, 3, ...; the n-th uuid
    is ["id-n"]; every token is the same 32 hex digits. *)
Definition entropy : Entropy :=
  {| rand := λ n, nth n [1; 0; 5; 7] 3; rand_pos := 0;
     uuid := λ n, "id-" +:+ pretty n; uuid_pos := 0;
     token := λ _, "3f9a1c0e7b2d4a5896c1e0f2a3b4c5d6"; token_pos := 0 |}.

(** The catalog of the fallback scenario: 3 + 4 images in two categories. *)
Definition cats_dogs : Catalog :=
  [("cats", ["a"; "b"; "c"]); ("dogs", ["d"; "e"; "f"; "g"])].

(** A catalog with plenty of distractors. *)
Definition three_kinds : Catalog :=
  [("cats", ["a"; "b"; "c"]); ("dogs", ["d"; "e"; "f"; "g"]);
   ("owls", ["h"; "i"; "j"])].

Definition challenge_text : string := "3f9a1c0e7b2d4a5896c1e0f2a3b4c5d6".

(** SHA-256 of [challenge_text ++ ":4437494"] starts with five zeros. *)
Definition good_nonce : string := "4437494".

Definition pending : PuzzleRecord :=
  {| correct_ids := {["a"; "b"]};
     pow_challenge := challenge_text;
     difficulty := DEMO_DIFFICULTY |}.

Definition store1 : Store := {["c1" := pending]}.

(** The object [api_verify] hands to [PyCap.verify] for [pending]. *)
Definition challenge_obj : PyCap.Challenge :=
  {| PyCap.challenge := challenge_text;
     PyCap.difficulty := DEMO_DIFFICULTY;
     PyCap.expires_at := (9999999999 # 1)%Q |}.

Definition request (sel : list string) (n : option string) : RequestData :=
  {| captcha_id := Some "c1"; selected_ids := sel; nonce := n |}.

(** A directory tree: under "/srv/img" the directories "cat_illusion"
    (two pictures and a text file) and "empty" (a hidden file only), and
    the plain file "README.md". *)
Definition tree : Scan.FileSystem :=
  {| Scan.isdir := λ path,
       bool_decide (path ∈ ["/srv/img"; "/srv/img/cat_illusion";
                            "/srv/img/empty"]);
     Scan.listdir := λ path,
       if bool_decide (path = "/srv/img")
       then ["README.md"; "cat_illusion"; "empty"]
       else if bool_decide (path = "/srv/img/cat_illusion")
       then ["one.PNG"; "notes.txt"; "two.jpeg"]
       else if bool_decide (path = "/srv/img/empty") then [".png"]
       else [] |}.




(** The verification request answering an issued puzzle. *)
Definition request_for (body : CaptchaBody) (sel : list string) (n : string)
    : RequestData :=
  {| captcha_id := Some (body_captcha_id body); selected_ids := sel;
     nonce := Some n |}.

End Demo.

(** The status check applied to a sequence of requests, one after the
    other, each on the store left by the previous one. *)
Fixpoint check_many (reqs : list Server.RequestData) (σ : gmap string Server.PuzzleRecord)
    : list Server.CheckResponse * gmap string Server.PuzzleRecord :=
  match reqs with
  | [] => ([], σ)
  | d :: ds =>
      let '(r, σ1) := Server.api_check d σ in
      let '(rs, σ2) := check_many ds σ1 in
      (r :: rs, σ2)
  end.

Import Effects Server.

(** The answer of [api_check] for a pending record. *)
Definition check_valid (record : PuzzleRecord) (sel : list string) : CheckResponse :=
  {| valid := true;
     correct := bool_decide ((list_to_set sel : gset string) = correct_ids record);
     check_error := None;
     check_pow := Some {| pow_block_challenge := pow_challenge record;
                          pow_block_difficulty := difficulty record;
                          algo := "sha256-prefix-zeros" |} |}.

(** ** Vocabulary of the statements about issuance *)

(** What [_discover_categories] returns: dictionary keys are distinct; a
    category is listed only [if files]; [os.listdir] returns distinct names,
    and a directory name holds no ["/"]. *)
Fixpoint has_slash (s : string) : bool :=
  match s with
  | "" => false
  | String c s' => if Ascii.ascii_dec c "/" then true else has_slash s'
  end.

Record catalog_ok (categories : Catalog) : Prop := {
  catalog_keys : NoDup categories.*1;
  catalog_names : Forall (λ cf, has_slash cf.1 = false) categories;
  catalog_files : Forall (λ cf, cf.2 ≠ [] ∧ NoDup cf.2) categories
}.

(** The declared bounds of [select_count] for a target category holding
    [files]. *)
Definition max_correct (files : list string) : Z :=
  Z.min (Z.min 4 (len files)) 6.
Definition min_correct (files : list string) : Z :=
  if decide (2 ≤ max_correct files)%Z then 2%Z else 1%Z.

(** A grid entry shows a file of category [cat]. *)
Definition from_category (cat : string) (img : Image) : Prop :=
  ∃ f, url img = image_url cat f.

(** The entries the two loops of [api_captcha] append for the pairs [l]
    when the next uuid is number [pos]. *)
Fixpoint images_from (u : nat → string) (pos : nat) (l : list (string * string))
    : list Image :=
  match l with
  | [] => []
  | cf :: l' =>
      {| id := u pos; url := image_url cf.1 cf.2 |} :: images_from u (S pos) l'
  end.

Definition with_rand_pos (n : nat) (e : Entropy) : Entropy :=
  {| rand := rand e; rand_pos := n; uuid := uuid e; uuid_pos := uuid_pos e;
     token := token e; token_pos := token_pos e |}.
Definition with_uuid_pos (n : nat) (e : Entropy) : Entropy :=
  {| rand := rand e; rand_pos := rand_pos e; uuid := uuid e; uuid_pos := n;
     token := token e; token_pos := token_pos e |}.
Definition with_token_pos (n : nat) (e : Entropy) : Entropy :=
  {| rand := rand e; rand_pos := rand_pos e; uuid := uuid e;
     uuid_pos := uuid_pos e; token := token e; token_pos := n |}.

(** The facts about the locals of [api_captcha] that the claims rest on. *)
Record puzzle_ok (D : Z) (categories : Catalog) (e : Entropy) (p : Puzzle)
    (files : list string) : Prop := {
  ok_target : dict_get categories (target_category p) = Some files;
  ok_target_in : (target_category p, files) ∈ categories;
  ok_bounds : (min_correct files ≤ select_count p ≤ max_correct files)%Z;
  ok_target_files : target_files p ⊆+ files;
  ok_count : len (target_files p) = select_count p;
  ok_fill :
    let non_target := non_target_of categories (target_category p) in
    if decide (len non_target < 6 - select_count p)%Z then
      ∃ extra, fill p = pair (target_category p) <$> extra
               ∧ extra ⊆+ filter (λ f, f ∉ target_files p) files
               ∧ len extra = Z.min (6 - select_count p)
                                   (len files - select_count p)
    else fill p ⊆+ non_target ∧ len (fill p) = (6 - select_count p)%Z;
  ok_images :
    images p ≡ₚ images_from (uuid e) (uuid_pos e)
                  ((pair (target_category p) <$> target_files p) ++ fill p);
  ok_correct_ids :
    puzzle_correct_ids p
    = list_to_set (uuid e <$> seq (uuid_pos e) (length (target_files p)));
  ok_id :
    puzzle_id p
    = uuid e (uuid_pos e + (length (target_files p) + length (fill p)));
  ok_pow_challenge : puzzle_pow_challenge p = token e (token_pos e);
  ok_difficulty : puzzle_difficulty p = D
}.

(** ** Vocabulary of the further properties *)

(** Every character of [s] satisfies [P]. *)
Fixpoint all_chars (P : ascii → bool) (s : string) : bool :=
  match s with
  | "" => true
  | String c s' => P c && all_chars P s'
  end.

(** The character [c] does not occur in [s]. *)
Definition lacks (c : ascii) (s : string) : bool :=
  all_chars (λ a, negb (bool_decide (a = c))) s.

(** A digit of lower-case hexadecimal notation. *)
Definition is_hex_digit (c : ascii) : bool :=
  bool_decide (c ∈ String.list_ascii_of_string "0123456789abcdef").

(** The request names no pending puzzle: the key is absent, empty, or not
    in the store. *)
Definition names_no_puzzle (data : RequestData) (σ : gmap string PuzzleRecord)
    : Prop :=
  match captcha_id data with
  | None => True
  | Some cid => cid = "" ∨ σ !! cid = None
  end.

(** * Properties *)

(** ** Strings, timestamps, SHA-256 test vectors *)

Example sha256_constants :
  SHA256.K !! 0%nat = Some 0x428a2f98%N ∧ SHA256.K !! 63%nat = Some 0xc67178f2%N
  ∧ SHA256.IV !! 0%nat = Some 0x6a09e667%N ∧ SHA256.IV !! 7%nat = Some 0x5be0cd19%N.
Proof. by vm_compute. Qed.

Example sha256_abc :
  SHA256.hexdigest "abc"
  = "ba7816bf8f01cfea414140de5dae2223b00361a396177a9cb410ff61f20015ad".
Proof. vm_compute. reflexivity. Qed.

Example sha256_empty :
  SHA256.hexdigest ""
  = "e3b0c44298fc1c149afbf4c8996fb92427ae41e4649b934ca495991b7852b855".
Proof. vm_compute. reflexivity. Qed.

Example sha256_two_blocks :
  SHA256.hexdigest
    ("The quick brown fox jumps over the lazy dog, and then it jumps again "
     +:+ "over the very same lazy dog to fill two blocks.")
  = "6a93f13174ea3a5a1855f898c3368f4bc5b6b274ab95c4e96702d9026374ea9c".
Proof. vm_compute. reflexivity. Qed.

Example sha256_good_nonce :
  SHA256.hexdigest (Demo.challenge_text +:+ ":" +:+ Demo.good_nonce)
  = "0000034696e3b0cefeaa3066f7ffed841e504712adcd013940a4a945865de0f2".
Proof. vm_compute. reflexivity. Qed.

Lemma Qgtb_true (x y : Q) : Qgtb x y = true ↔ (y < x)%Q.
Proof.
  unfold Qgtb. rewrite negb_true_iff. split.
  - intros H. apply Qnot_le_lt. intros Hle.
    apply Qle_bool_iff in Hle. congruence.
  - intros H. destruct (Qle_bool x y) eqn:E; [|done].
    apply Qle_bool_iff in E. exfalso. by apply (Qlt_not_le y x).
Qed.

Lemma Qgtb_false (x y : Q) : Qgtb x y = false ↔ (x <= y)%Q.
Proof.
  unfold Qgtb. rewrite negb_false_iff. apply Qle_bool_iff.
Qed.

Lemma leading_zeros_cons (c : ascii) (s : string) :
  leading_zeros (String c s)
  = if Ascii.ascii_dec "0" c then S (leading_zeros s) else 0.
Proof.
  destruct (Ascii.ascii_dec "0" c) as [<-|Hc]; [done|].
  by destruct c as [[] [] [] [] [] [] [] []].
Qed.

Lemma startswith_zeros (s : string) (n : nat) :
  startswith s (str_repeat "0" n) = true ↔ n ≤ leading_zeros s.
Proof.
  unfold startswith. revert s. induction n as [|n IH]; intros s.
  - destruct s; simpl; split; (lia || done).
  - destruct s as [|c s]; [simpl; split; [done|lia]|].
    rewrite leading_zeros_cons. cbn [str_repeat].
    change ("0" +:+ str_repeat "0" n) with (String "0" (str_repeat "0" n)).
    cbn [String.prefix].
    destruct (Ascii.ascii_dec "0" c) as [_|_].
    + rewrite IH. lia.
    + split; [done|lia].
Qed.

Lemma startswith_str_mul_zeros (s : string) (d : Z) :
  startswith s (str_mul "0" d) = true ↔ (d ≤ Z.of_nat (leading_zeros s))%Z.
Proof. unfold str_mul. rewrite startswith_zeros. lia. Qed.

(** ** The proof-of-work check ([PyCap.verify]) *)

Lemma verify_expired (self : PyCap.PyCap) (now : Q) (ch : PyCap.Challenge)
    (nonce : string) :
  (PyCap.expires_at ch < now)%Q →
  PyCap.verify self now ch nonce = (false, "Challenge expired").
Proof.
  intros Hlt. unfold PyCap.verify.
  by rewrite (proj2 (Qgtb_true now (PyCap.expires_at ch)) Hlt).
Qed.

Lemma verify_unexpired (self : PyCap.PyCap) (now : Q) (ch : PyCap.Challenge)
    (nonce : string) :
  (now <= PyCap.expires_at ch)%Q →
  PyCap.verify self now ch nonce
  = if startswith (SHA256.hexdigest (PyCap.challenge ch +:+ ":" +:+ nonce))
         (str_mul "0" (PyCap.difficulty ch))
    then (true, "ok") else (false, "Insufficient PoW difficulty").
Proof.
  intros Hle. unfold PyCap.verify, PyCap._hash.
  rewrite (proj2 (Qgtb_false now (PyCap.expires_at ch)) Hle).
  by destruct (startswith _ _).
Qed.

(** C6. On a challenge that has not expired, [PyCap.verify] hashes
    [challenge ++ ":" ++ nonce] with SHA-256 and answers [(True, "ok")]
    exactly when the hexadecimal digest starts with at least [difficulty]
    characters ['0']; otherwise it answers
    [(False, "Insufficient PoW difficulty")]. *)
Theorem verify_pow_leading_zeros (self : PyCap.PyCap) (now : Q)
    (ch : PyCap.Challenge) (nonce : string) :
  (now <= PyCap.expires_at ch)%Q →
  let digest := SHA256.hexdigest (PyCap.challenge ch +:+ ":" +:+ nonce) in
  let enough := (PyCap.difficulty ch ≤ Z.of_nat (leading_zeros digest))%Z in
  (PyCap.verify self now ch nonce = (true, "ok") ↔ enough)
  ∧ (¬ enough →
     PyCap.verify self now ch nonce = (false, "Insufficient PoW difficulty")).
Proof.
  intros Hle digest enough. rewrite (verify_unexpired _ _ _ _ Hle).
  fold digest. subst enough.
  rewrite <- startswith_str_mul_zeros.
  destruct (startswith digest _); split; try done.
Qed.

Lemma verify_pow_leading_zeros_witness :
  PyCap.verify (PY_CAP DEMO_DIFFICULTY) (2000 # 1)%Q Demo.challenge_obj Demo.good_nonce
  = (true, "ok")
  ∧ PyCap.verify (PY_CAP DEMO_DIFFICULTY) (2000 # 1)%Q Demo.challenge_obj "x"
    = (false, "Insufficient PoW difficulty").
Proof.
  split.
  - apply (verify_pow_leading_zeros (PY_CAP DEMO_DIFFICULTY) (2000 # 1)%Q
             Demo.challenge_obj Demo.good_nonce); by vm_compute.
  - apply (verify_pow_leading_zeros (PY_CAP DEMO_DIFFICULTY) (2000 # 1)%Q
             Demo.challenge_obj "x"); by vm_compute.
Defined.

(** ** Verification ([api_verify]) *)

(** What [api_verify] does once the id is known to be pending. *)
Lemma api_verify_pending (D : Z) (now : Q) (data : RequestData)
    (σ : gmap string PuzzleRecord) (cid : string) (record : PuzzleRecord) :
  captcha_id data = Some cid → cid ≠ "" → σ !! cid = Some record →
  let selected : gset string := list_to_set (selected_ids data) in
  api_verify D now data σ
  = if decide (size selected = size (correct_ids record)) then
      if decide (default "" (nonce data) = "") then
        (VerifyError "Missing PoW nonce.", σ)
      else
        let ch := {| PyCap.challenge := pow_challenge record;
                     PyCap.difficulty :=
                       if decide (difficulty record = 0%Z) then D
                       else difficulty record;
                     PyCap.expires_at := (9999999999 # 1)%Q |} in
        let r := PyCap.verify (PY_CAP D) now ch (default "" (nonce data)) in
        if r.1 then
          (VerifyResult (bool_decide (selected = correct_ids record)),
           delete cid σ)
        else (VerifyError r.2, σ)
    else
      (VerifyError (count_mismatch (size (correct_ids record)) (size selected)),
       σ).
Proof.
  intros Hid Hne Hrec selected. unfold api_verify. rewrite Hid.
  rewrite (bool_decide_eq_false_2 _ Hne), Hrec. fold selected.
  repeat case_bool_decide; repeat case_decide; simpl; try done.
  all: by destruct (PyCap.verify _ _ _ _) as [[] ?].
Qed.

Lemma count_mismatch_start (a b : nat) :
  ∃ rest, count_mismatch a b = String "M" (String "u" rest).
Proof. unfold count_mismatch. cbn. by eexists. Qed.

Lemma api_verify_unknown (D : Z) (now : Q) (data : RequestData)
    (σ : gmap string PuzzleRecord) (cid : string) :
  captcha_id data = Some cid → σ !! cid = None →
  api_verify D now data σ = (VerifyError "Invalid or expired captcha.", σ).
Proof.
  intros Hid Hnone. unfold api_verify. rewrite Hid, Hnone.
  by case_bool_decide.
Qed.

(** An error answer never touches the store. *)
Lemma api_verify_error_keeps_store (D : Z) (now : Q) (data : RequestData)
    (σ σ' : gmap string PuzzleRecord) (err : string) :
  api_verify D now data σ = (VerifyError err, σ') → σ' = σ.
Proof.
  unfold api_verify. intros H.
  repeat (first [ case_match | case_bool_decide ]; simplify_eq/=; try done).
Qed.

(** A [{"success": ...}] answer retires the record: the same id is unknown
    to the next call. *)
Lemma api_verify_result_consumes (D : Z) (now now' : Q) (data data' : RequestData)
    (σ σ' : gmap string PuzzleRecord) (b : bool) :
  api_verify D now data σ = (VerifyResult b, σ') →
  captcha_id data' = captcha_id data →
  api_verify D now' data' σ' = (VerifyError "Invalid or expired captcha.", σ').
Proof.
  intros H Hid. unfold api_verify in H.
  destruct (captcha_id data) as [cid|] eqn:Hcid; [|done].
  assert (σ' = delete cid σ) as ->.
  { repeat (first [ case_match | case_bool_decide ]; simplify_eq/=; try done). }
  apply (api_verify_unknown _ _ _ _ cid); [done|]. apply lookup_delete_eq.
Qed.

(** C9. For a pending id, a selection whose cardinality differs from that
    of [correct_ids] is answered with the "Must select exactly ..." error
    and the store is left as it was; the answer is fixed before the proof of
    work is looked at: it is the same for every nonce (also a missing one),
    every clock value and every stored challenge and difficulty. *)
Theorem verify_count_checked_before_pow (D : Z) (now : Q) (data : RequestData)
    (σ : gmap string PuzzleRecord) (cid : string) (record : PuzzleRecord) :
  captcha_id data = Some cid → cid ≠ "" → σ !! cid = Some record →
  size (list_to_set (selected_ids data) : gset string)
    ≠ size (correct_ids record) →
  api_verify D now data σ
  = (VerifyError (count_mismatch (size (correct_ids record))
                    (size (list_to_set (selected_ids data) : gset string))),
     σ).
Proof.
  intros Hid Hne Hrec Hsize.
  rewrite (api_verify_pending D now data σ cid record Hid Hne Hrec).
  by rewrite decide_False.
Qed.

Lemma verify_count_checked_before_pow_witness :
  api_verify DEMO_DIFFICULTY (2000 # 1)%Q (Demo.request ["a"] (Some Demo.good_nonce))
    Demo.store1
  = (VerifyError "Must select exactly 2 images, got 1.", Demo.store1).
Proof.
  apply (verify_count_checked_before_pow DEMO_DIFFICULTY (2000 # 1)%Q
           (Demo.request ["a"] (Some Demo.good_nonce)) Demo.store1 "c1"
           Demo.pending); by vm_compute.
Defined.

(** C1 (the code departs from it). A verification that ends in an error
    leaves the record in place.  On the store [{"c1": pending}] a wrong
    count, a missing nonce and an insufficient nonce each return their
    error with the store unchanged, and a later call with the same id is
    evaluated again: it returns [{"success": True}] rather than "Invalid or
    expired captcha.".  Only that successful evaluation removes the
    record. *)
Theorem verify_error_leaves_record_pending :
  let now := (2000 # 1)%Q in
  api_verify DEMO_DIFFICULTY now (Demo.request ["a"] (Some Demo.good_nonce)) Demo.store1
  = (VerifyError "Must select exactly 2 images, got 1.", Demo.store1)
  ∧ api_verify DEMO_DIFFICULTY now (Demo.request ["a"; "b"] None) Demo.store1
    = (VerifyError "Missing PoW nonce.", Demo.store1)
  ∧ api_verify DEMO_DIFFICULTY now (Demo.request ["a"; "b"] (Some "x")) Demo.store1
    = (VerifyError "Insufficient PoW difficulty", Demo.store1)
  ∧ api_verify DEMO_DIFFICULTY now (Demo.request ["a"; "b"] (Some Demo.good_nonce))
      (api_verify DEMO_DIFFICULTY now (Demo.request ["a"; "b"] (Some "x")) Demo.store1).2
    = (VerifyResult true, ∅)
  ∧ api_verify DEMO_DIFFICULTY now (Demo.request ["a"; "b"] (Some Demo.good_nonce)) ∅
    = (VerifyError "Invalid or expired captcha.", ∅).
Proof. repeat split; by vm_compute. Qed.

(** ** Status check ([api_check]) *)

Lemma api_check_pending (data : RequestData) (σ : gmap string PuzzleRecord)
    (cid : string) (record : PuzzleRecord) :
  captcha_id data = Some cid → cid ≠ "" → σ !! cid = Some record →
  api_check data σ = (check_valid record (selected_ids data), σ).
Proof.
  intros Hid Hne Hrec. unfold api_check.
  by rewrite Hid, (bool_decide_eq_false_2 _ Hne), Hrec.
Qed.

(** C5. For a pending id, any sequence of status checks, whatever the
    selections and whether or not a nonce is sent, answers each request with
    [valid = True] and [correct = (selected_ids == correct_ids)] and ends
    with the store it started from: the record is still there and the
    checks can go on. *)
Theorem check_pending_any_number_of_times (reqs : list RequestData)
    (σ : gmap string PuzzleRecord) (cid : string) (record : PuzzleRecord) :
  cid ≠ "" → σ !! cid = Some record →
  Forall (λ d, captcha_id d = Some cid) reqs →
  check_many reqs σ
  = (map (λ d, check_valid record (selected_ids d)) reqs, σ)
  ∧ Forall (λ r, valid r = true) (check_many reqs σ).1
  ∧ (check_many reqs σ).2 !! cid = Some record.
Proof.
  intros Hne Hrec Hall.
  assert (check_many reqs σ
          = (map (λ d, check_valid record (selected_ids d)) reqs, σ)) as ->.
  { induction Hall as [|d ds Hd _ IH]; [done|].
    cbn [check_many]. rewrite (api_check_pending d σ cid record Hd Hne Hrec).
    by rewrite IH. }
  split; [done|]. split; [|done].
  cbn [fst]. apply Forall_forall. intros r Hr.
  apply list_elem_of_In, in_map_iff in Hr as (d & <- & _). done.
Qed.

Lemma check_pending_any_number_of_times_witness :
  check_many [Demo.request ["a"] None; Demo.request ["b"; "a"] None;
              Demo.request ["a"; "b"; "c"] (Some "x")] Demo.store1
  = ([check_valid Demo.pending ["a"]; check_valid Demo.pending ["b"; "a"];
      check_valid Demo.pending ["a"; "b"; "c"]], Demo.store1).
Proof.
  apply (check_pending_any_number_of_times
           [Demo.request ["a"] None; Demo.request ["b"; "a"] None;
            Demo.request ["a"; "b"; "c"] (Some "x")]
           Demo.store1 "c1" Demo.pending).
  - done.
  - by vm_compute.
  - repeat constructor.
Defined.

(** C10. [api_check] returns the store it was given, for every request and
    every store: each record, the queried one included, is what it was, and
    any verification made afterwards behaves as if the check had not
    happened. *)
Theorem check_never_modifies_store (data : RequestData)
    (σ : gmap string PuzzleRecord) :
  (api_check data σ).2 = σ
  ∧ (∀ cid, (api_check data σ).2 !! cid = σ !! cid)
  ∧ (∀ D now vdata,
       api_verify D now vdata (api_check data σ).2 = api_verify D now vdata σ).
Proof.
  assert ((api_check data σ).2 = σ) as ->; [|done].
  unfold api_check.
  destruct (captcha_id data); [|done].
  case_bool_decide; [done|]. by destruct (σ !! s).
Qed.

(** ** Running the entropy monad *)

Lemma bind_run {A B} (m : M A) (f : A → M B) (e e1 : Entropy) (a : A) :
  m e = Ok (a, e1) → (m ≫= f) e = f a e1.
Proof. intros H. unfold mbind, M_bind. by rewrite H. Qed.

Lemma draw_run (e : Entropy) :
  draw e = Ok (rand e (rand_pos e), with_rand_pos (S (rand_pos e)) e).
Proof. done. Qed.

Lemma uuid4_run (e : Entropy) :
  uuid4 e = Ok (uuid e (uuid_pos e), with_uuid_pos (S (uuid_pos e)) e).
Proof. done. Qed.

Lemma randint_run (a b : Z) (e : Entropy) :
  (a ≤ b)%Z →
  ∃ v, randint a b e = Ok (v, with_rand_pos (S (rand_pos e)) e)
       ∧ (a ≤ v ≤ b)%Z.
Proof.
  intros Hab. unfold randint. rewrite decide_False by lia.
  eexists. split; [done|].
  pose proof (Z.mod_pos_bound (Z.of_nat (rand e (rand_pos e))) (b - a + 1)).
  lia.
Qed.

Lemma choice_run {A} (seq : list A) (e : Entropy) :
  seq ≠ [] →
  ∃ x, choice seq e = Ok (x, with_rand_pos (S (rand_pos e)) e) ∧ x ∈ seq.
Proof.
  intros Hne. unfold choice. rewrite (bind_run _ _ _ _ _ (draw_run e)).
  destruct (lookup_lt_is_Some_2 seq (rand e (rand_pos e) `mod` length seq))
    as [x Hx].
  { apply Nat.mod_upper_bound. by destruct seq. }
  rewrite Hx. exists x. split; [done|]. by eapply list_elem_of_lookup_2.
Qed.

Lemma pick_run {A} (k : nat) (population : list A) (e : Entropy) :
  k ≤ length population →
  ∃ l, pick k population e = Ok (l, with_rand_pos (k + rand_pos e) e)
       ∧ l ⊆+ population ∧ length l = k.
Proof.
  revert population e. induction k as [|k IH]; intros population e Hk.
  - exists []. split; [by destruct e|]. split; [apply submseteq_nil_l|done].
  - cbn [pick]. rewrite (bind_run _ _ _ _ _ (draw_run e)).
    set (i := rand e (rand_pos e) `mod` length population).
    destruct (lookup_lt_is_Some_2 population i) as [x Hx].
    { apply Nat.mod_upper_bound. lia. }
    rewrite Hx.
    destruct (IH (delete i population) (with_rand_pos (S (rand_pos e)) e))
      as (rest & Hrest & Hsub & Hlen).
    { rewrite length_delete by eauto. lia. }
    rewrite (bind_run _ _ _ _ _ Hrest). exists (x :: rest).
    split; [|split].
    + cbn. by replace (k + S (rand_pos e)) with (S (k + rand_pos e)) by lia.
    + rewrite (delete_Permutation population i x Hx). by constructor.
    + cbn. by rewrite Hlen.
Qed.

Lemma sample_run {A} (population : list A) (k : Z) (e : Entropy) :
  (0 ≤ k ≤ len population)%Z →
  ∃ l, sample population k e
       = Ok (l, with_rand_pos (Z.to_nat k + rand_pos e) e)
       ∧ l ⊆+ population ∧ len l = k.
Proof.
  intros Hk. unfold sample, len in *. rewrite decide_True by done.
  destruct (pick_run (Z.to_nat k) population e) as (l & Hl & Hsub & Hlen);
    [lia|].
  exists l. split; [done|]. split; [done|]. lia.
Qed.

Lemma shuffle_run {A} (x : list A) (e : Entropy) :
  ∃ l, shuffle x e = Ok (l, with_rand_pos (length x + rand_pos e) e)
       ∧ l ≡ₚ x.
Proof.
  destruct (pick_run (length x) x e) as (l & Hl & Hsub & Hlen); [done|].
  exists l. split; [done|]. by apply submseteq_length_Permutation; [|lia].
Qed.

Lemma make_image_run (cf : string * string) (e : Entropy) :
  make_image cf e
  = Ok ({| id := uuid e (uuid_pos e); url := image_url cf.1 cf.2 |},
        with_uuid_pos (S (uuid_pos e)) e).
Proof. done. Qed.

Lemma make_images_run (l : list (string * string)) (e : Entropy) :
  mapM make_image l e
  = Ok (images_from (uuid e) (uuid_pos e) l,
        with_uuid_pos (length l + uuid_pos e) e).
Proof.
  revert e. induction l as [|cf l IH]; intros e; [by destruct e|].
  cbn [mapM]. rewrite (bind_run _ _ _ _ _ (make_image_run cf e)).
  rewrite (bind_run _ _ _ _ _ (IH _)). cbn.
  by replace (length l + S (uuid_pos e)) with (S (length l + uuid_pos e)) by lia.
Qed.

Lemma make_pow_challenge_run (D : Z) (now : Q) (e : Entropy) :
  _make_pow_challenge D now e
  = Ok ((token e (token_pos e), D), with_token_pos (S (token_pos e)) e).
Proof. done. Qed.

(** ** The sampler *)

Lemma dict_get_elem_of (categories : Catalog) (name : string) :
  name ∈ categories.*1 →
  ∃ files, dict_get categories name = Some files ∧ (name, files) ∈ categories.
Proof.
  induction categories as [|[cat fs] rest IH]; cbn; intros Hin.
  - by apply not_elem_of_nil in Hin.
  - case_decide as Hc.
    + subst. exists fs. split; [done|]. by left.
    + apply elem_of_cons in Hin as [->|Hin]; [done|].
      destruct (IH Hin) as (files & Hget & Hel).
      exists files. split; [done|]. by right.
Qed.

Lemma filter_none {A} (P : A → Prop) `{∀ x, Decision (P x)} (l : list A) :
  (∀ y, y ∈ l → ¬ P y) → filter P l = [].
Proof.
  induction l as [|y l IH]; intros Hl; [done|].
  rewrite filter_cons_False by (apply Hl; by left).
  apply IH. intros z Hz. apply Hl. by right.
Qed.

Lemma filter_all {A} (P : A → Prop) `{∀ x, Decision (P x)} (l : list A) :
  (∀ y, y ∈ l → P y) → filter P l = l.
Proof.
  induction l as [|y l IH]; intros Hl; [done|].
  rewrite filter_cons_True by (apply Hl; by left).
  f_equal. apply IH. intros z Hz. apply Hl. by right.
Qed.

Lemma filter_not_in_length (files tf : list string) :
  NoDup files → tf ⊆+ files →
  length (filter (λ f, f ∉ tf) files) = length files - length tf.
Proof.
  intros Hnd Hsub.
  destruct (submseteq_Permutation _ _ Hsub) as [k Hk].
  rewrite Hk in Hnd |- *. apply NoDup_app in Hnd as (_ & Hdisj & _).
  rewrite filter_app, !length_app.
  rewrite (filter_none (λ f, f ∉ tf) tf) by (intros y Hy Hn; by apply Hn).
  rewrite (filter_all (λ f, f ∉ tf) k)
    by (intros y Hy Hn; by apply (Hdisj y Hn)).
  cbn. lia.
Qed.

Lemma images_from_app (u : nat → string) (pos : nat)
    (l1 l2 : list (string * string)) :
  images_from u pos (l1 ++ l2)
  = images_from u pos l1 ++ images_from u (length l1 + pos) l2.
Proof.
  revert pos. induction l1 as [|cf l1 IH]; intros pos; [done|].
  cbn. rewrite IH. by replace (length l1 + S pos) with (S (length l1 + pos)) by lia.
Qed.

Lemma images_from_ids (u : nat → string) (pos : nat) (l : list (string * string)) :
  id <$> images_from u pos l = u <$> seq pos (length l).
Proof.
  revert pos. induction l as [|cf l IH]; intros pos; [done|].
  cbn. by rewrite IH.
Qed.

Lemma images_from_length (u : nat → string) (pos : nat)
    (l : list (string * string)) :
  length (images_from u pos l) = length l.
Proof.
  revert pos. induction l as [|cf l IH]; intros pos; [done|].
  cbn. by rewrite IH.
Qed.

Lemma bounds_feasible (files : list string) :
  files ≠ [] →
  (1 ≤ min_correct files ≤ max_correct files)%Z
  ∧ (max_correct files ≤ 4)%Z ∧ (max_correct files ≤ len files)%Z.
Proof.
  intros Hne. unfold min_correct, max_correct, len.
  destruct files; [done|]. cbn [length]. case_decide; lia.
Qed.

(** On a well-formed, non-empty catalog the sampler raises nothing, and
    its locals satisfy [puzzle_ok]. *)
Lemma build_puzzle_run (D : Z) (categories : Catalog) (now : Q) (e : Entropy) :
  categories ≠ [] → catalog_ok categories →
  ∃ p e' files,
    build_puzzle D categories now e = Ok (p, e')
    ∧ puzzle_ok D categories e p files.
Proof.
  intros Hne [Hkeys Hnames Hfiles]. unfold build_puzzle.
  destruct (choice_run (categories.*1) e) as (target & Hch & Hin).
  { by destruct categories. }
  rewrite (bind_run _ _ _ _ _ Hch).
  destruct (dict_get_elem_of categories target Hin) as (files & Hget & Hel).
  rewrite Hget. cbv zeta.
  destruct (proj1 (Forall_forall _ _) Hfiles (target, files) Hel)
    as [Hfne Hfnd]. cbn [snd] in Hfne, Hfnd.
  destruct (bounds_feasible files Hfne) as (Hb1 & Hb4 & Hbl).
  fold (max_correct files). fold (min_correct files).
  set (e1 := with_rand_pos (S (rand_pos e)) e).
  destruct (randint_run (min_correct files) (max_correct files) e1)
    as (sc & Hsc & Hscb); [lia|].
  rewrite (bind_run _ _ _ _ _ Hsc).
  set (e2 := with_rand_pos (S (rand_pos e1)) e1).
  destruct (sample_run files (Z.min sc (len files)) e2)
    as (tf & Htf & Htfsub & Htflen); [lia|].
  rewrite (bind_run _ _ _ _ _ Htf).
  rewrite Z.min_l in Htflen by lia.
  set (e3 := with_rand_pos _ e2).
  set (non_target := non_target_of categories target).
  assert (∃ fl e4,
    (if decide (len non_target < 6 - len tf)%Z
     then extra ← sample (filter (λ f, f ∉ tf) files)
                    (Z.min (6 - len tf) (Z.max 0 (len files - len tf)));
          mret (pair target <$> extra)
     else sample non_target (6 - len tf)%Z) e3 = Ok (fl, e4)
    ∧ uuid e4 = uuid e ∧ uuid_pos e4 = uuid_pos e
    ∧ token e4 = token e ∧ token_pos e4 = token_pos e
    ∧ (if decide (len non_target < 6 - sc)%Z then
         ∃ extra, fl = pair target <$> extra
                  ∧ extra ⊆+ filter (λ f, f ∉ tf) files
                  ∧ len extra = Z.min (6 - sc) (len files - sc)
       else fl ⊆+ non_target ∧ len fl = (6 - sc)%Z))
    as (fl & e4 & Hfl & Hu4 & Hup4 & Ht4 & Htp4 & Hfill).
  { rewrite Htflen. case_decide as Hshort.
    - assert (len (filter (λ f, f ∉ tf) files) = len files - sc)%Z as Hflen.
      { unfold len in *. rewrite filter_not_in_length by done.
        apply submseteq_length in Htfsub. lia. }
      destruct (sample_run (filter (λ f, f ∉ tf) files)
                  (Z.min (6 - sc) (Z.max 0 (len files - sc))) e3)
        as (extra & Hex & Hexsub & Hexlen); [lia|].
      rewrite (bind_run _ _ _ _ _ Hex).
      eexists _, _. split; [done|]. repeat (split; [done|]).
      exists extra. repeat (split; [done|]). lia.
    - destruct (sample_run non_target (6 - sc) e3)
        as (fl & Hfl & Hflsub & Hfllen); [lia|].
      eexists _, _. split; [done|]. by repeat (split; [done|]). }
  rewrite (bind_run _ _ _ _ _ Hfl).
  rewrite (bind_run _ _ _ _ _ (make_images_run _ e4)).
  rewrite (bind_run _ _ _ _ _ (make_images_run fl _)).
  set (e6 := with_uuid_pos _ (with_uuid_pos _ e4)).
  destruct (shuffle_run
              (images_from (uuid e4) (uuid_pos e4) (pair target <$> tf)
               ++ images_from (uuid (with_uuid_pos
                                       (length (pair target <$> tf) + uuid_pos e4) e4))
                    (uuid_pos (with_uuid_pos
                                 (length (pair target <$> tf) + uuid_pos e4) e4))
                    fl) e6)
    as (imgs & Himgs & Hperm).
  rewrite (bind_run _ _ _ _ _ Himgs).
  rewrite (bind_run _ _ _ _ _ (uuid4_run _)).
  rewrite (bind_run _ _ _ _ _ (make_pow_challenge_run D now _)).
  eexists _, _, files. split; [done|].
  cbn in Hperm. rewrite length_fmap in Hperm.
  split; cbn; try done.
  - rewrite Hperm, images_from_app, length_fmap. by rewrite Hu4, Hup4.
  - by rewrite images_from_ids, length_fmap, Hu4, Hup4.
  - rewrite length_fmap, Hu4, Hup4. f_equal. lia.
  - by rewrite Ht4, Htp4.
Qed.

Lemma api_captcha_run (D : Z) (categories : Catalog) (now : Q)
    (σ : gmap string PuzzleRecord) (e e' : Entropy) (p : Puzzle) :
  categories ≠ [] →
  build_puzzle D categories now e = Ok (p, e') →
  api_captcha D categories now σ e
  = Ok ((CaptchaOk (body_of p), <[puzzle_id p := record_of p]> σ), e').
Proof.
  intros Hne Hp. unfold api_captcha. destruct categories; [done|].
  by rewrite (bind_run _ _ _ _ _ Hp).
Qed.

Lemma api_captcha_empty (D : Z) (now : Q) (σ : gmap string PuzzleRecord)
    (e : Entropy) :
  api_captcha D [] now σ e
  = Ok ((CaptchaError "No categories with images found.", σ), e).
Proof. done. Qed.

(** ** Well-formedness of the concrete inputs *)

Lemma cats_dogs_ok : catalog_ok Demo.cats_dogs.
Proof.
  split.
  - compute_done.
  - by repeat constructor.
  - repeat constructor; try done; compute_done.
Qed.

Lemma three_kinds_ok : catalog_ok Demo.three_kinds.
Proof.
  split.
  - compute_done.
  - by repeat constructor.
  - repeat constructor; try done; compute_done.
Qed.

Lemma demo_uuid_inj : Inj (=) (=) (uuid Demo.entropy).
Proof.
  intros m n Hmn. cbn in Hmn.
  apply (inj pretty). by simplify_eq/=.
Qed.

(** ** Issued puzzles *)

(** C7. On a well-formed, non-empty catalog, with collision-free uuids,
    [api_captcha] answers with a puzzle whose [select_count] lies between
    [min_correct] (2, or 1 when the target category has a single image) and
    [max_correct = min(4, len(categories[target]), 6)]; the stored
    [correct_ids] are ids of returned grid entries and there are exactly
    [select_count] of them. *)
Theorem issued_select_count_and_correct_ids (D : Z) (categories : Catalog)
    (now : Q) (σ : gmap string PuzzleRecord) (e : Entropy) :
  categories ≠ [] → catalog_ok categories → Inj (=) (=) (uuid e) →
  ∃ p e' files body σ' record,
    build_puzzle D categories now e = Ok (p, e')
    ∧ api_captcha D categories now σ e = Ok ((CaptchaOk body, σ'), e')
    ∧ σ' !! body_captcha_id body = Some record
    ∧ dict_get categories (target_category p) = Some files
    ∧ max_correct files = Z.min (Z.min 4 (len files)) 6
    ∧ min_correct files = (if decide (2 ≤ max_correct files)%Z then 2 else 1)%Z
    ∧ (min_correct files ≤ body_select_count body ≤ max_correct files)%Z
    ∧ body_select_count body = select_count p
    ∧ correct_ids record ⊆ list_to_set (id <$> body_images body)
    ∧ Z.of_nat (size (correct_ids record)) = body_select_count body.
Proof.
  intros Hne Hok Hinj.
  destruct (build_puzzle_run D categories now e Hne Hok)
    as (p & e' & files & Hrun & Hp).
  exists p, e', files, (body_of p), (<[puzzle_id p := record_of p]> σ),
    (record_of p).
  pose proof (ok_count _ _ _ _ _ Hp) as Hcount.
  pose proof (ok_correct_ids _ _ _ _ _ Hp) as Hids.
  split; [done|].
  split; [by apply api_captcha_run|].
  split; [apply lookup_insert_eq|].
  split; [apply (ok_target _ _ _ _ _ Hp)|]. split; [done|]. split; [done|].
  cbn. rewrite Hcount.
  split; [apply (ok_bounds _ _ _ _ _ Hp)|]. split; [done|]. split.
  - intros i. rewrite Hids, !elem_of_list_to_set.
    rewrite (ok_images _ _ _ _ _ Hp), images_from_app, fmap_app.
    rewrite images_from_ids, length_fmap. intros Hi.
    apply elem_of_app. by left.
  - rewrite Hids, size_list_to_set.
    + rewrite length_fmap, length_seq. exact Hcount.
    + apply NoDup_fmap_2; [done|]. apply NoDup_seq.
Qed.

Lemma issued_select_count_and_correct_ids_witness :
  ∃ p e' files body σ' record,
    build_puzzle DEMO_DIFFICULTY Demo.cats_dogs (1000 # 1)%Q Demo.entropy = Ok (p, e')
    ∧ api_captcha DEMO_DIFFICULTY Demo.cats_dogs (1000 # 1)%Q ∅ Demo.entropy
      = Ok ((CaptchaOk body, σ'), e')
    ∧ σ' !! body_captcha_id body = Some record
    ∧ dict_get Demo.cats_dogs (target_category p) = Some files
    ∧ max_correct files = Z.min (Z.min 4 (len files)) 6
    ∧ min_correct files = (if decide (2 ≤ max_correct files)%Z then 2 else 1)%Z
    ∧ (min_correct files ≤ body_select_count body ≤ max_correct files)%Z
    ∧ body_select_count body = select_count p
    ∧ correct_ids record ⊆ list_to_set (id <$> body_images body)
    ∧ Z.of_nat (size (correct_ids record)) = body_select_count body.
Proof.
  apply (issued_select_count_and_correct_ids DEMO_DIFFICULTY Demo.cats_dogs (1000 # 1)%Q
           ∅ Demo.entropy).
  - done.
  - exact cats_dogs_ok.
  - exact demo_uuid_inj.
Defined.

Lemma images_from_elem_of (u : nat → string) (pos : nat)
    (l : list (string * string)) (img : Image) :
  img ∈ images_from u pos l →
  ∃ cf, cf ∈ l ∧ url img = image_url cf.1 cf.2.
Proof.
  revert pos. induction l as [|cf l IH]; intros pos; cbn.
  - intros Hin. by apply not_elem_of_nil in Hin.
  - intros [->|Hin]%elem_of_cons.
    + exists cf. split; [by left|done].
    + destruct (IH _ Hin) as (cf' & Hcf' & Hurl).
      exists cf'. split; [by right|done].
Qed.

Lemma non_target_elem_of (categories : Catalog) (target : string)
    (cf : string * string) :
  cf ∈ non_target_of categories target →
  cf.1 ≠ target ∧ ∃ files, (cf.1, files) ∈ categories ∧ cf.2 ∈ files.
Proof.
  unfold non_target_of. intros ([cat files] & Hcf & Hin)%list_elem_of_bind.
  cbn in Hcf. case_decide as Hc; [by apply not_elem_of_nil in Hcf|].
  apply list_elem_of_fmap in Hcf as (f & -> & Hf). cbn.
  split; [done|]. by exists files.
Qed.

Lemma append_slash_inj (c1 c2 r1 r2 : string) :
  has_slash c1 = false → has_slash c2 = false →
  c1 +:+ String "/" r1 = c2 +:+ String "/" r2 → c1 = c2.
Proof.
  revert c2. induction c1 as [|a c1 IH]; intros [|b c2]; cbn; try done.
  - intros _ Hb [= <- _]. by destruct (Ascii.ascii_dec "/" "/").
  - intros Ha _ [= -> _]. by destruct (Ascii.ascii_dec "/" "/").
  - intros Ha Hb [= -> Heq].
    destruct (Ascii.ascii_dec b "/"); [done|].
    f_equal. by apply IH.
Qed.

Lemma image_url_category (c1 c2 f1 f2 : string) :
  has_slash c1 = false → has_slash c2 = false →
  image_url c1 f1 = image_url c2 f2 → c1 = c2.
Proof.
  intros H1 H2 Heq. unfold image_url in Heq. cbn in Heq.
  injection Heq as Heq. by apply (append_slash_inj c1 c2 f1 f2).
Qed.

Lemma grid_length (D : Z) (categories : Catalog) (e : Entropy) (p : Puzzle)
    (files : list string) :
  puzzle_ok D categories e p files →
  len (images p) = (select_count p + len (fill p))%Z.
Proof.
  intros Hp. unfold len.
  rewrite (ok_images _ _ _ _ _ Hp), images_from_length, length_app, length_fmap.
  pose proof (ok_count _ _ _ _ _ Hp) as Hc. unfold len in Hc. lia.
Qed.

(** C8, as the code has it. The grid never has more than 6 entries.  It
    has exactly 6 when the distractor pool holds at least
    [6 - select_count] pairs; otherwise the pool is not used at all and the
    grid holds [min(6, len(categories[target]))] entries, every one of them
    from the target category. *)
Theorem issued_grid_size (D : Z) (categories : Catalog) (now : Q)
    (σ : gmap string PuzzleRecord) (e : Entropy) :
  categories ≠ [] → catalog_ok categories →
  ∃ p e' files body σ',
    build_puzzle D categories now e = Ok (p, e')
    ∧ api_captcha D categories now σ e = Ok ((CaptchaOk body, σ'), e')
    ∧ dict_get categories (target_category p) = Some files
    ∧ (len (body_images body) ≤ 6)%Z
    ∧ ((6 - select_count p
        ≤ len (non_target_of categories (target_category p)))%Z →
       len (body_images body) = 6%Z)
    ∧ ((len (non_target_of categories (target_category p))
        < 6 - select_count p)%Z →
       len (body_images body) = Z.min 6 (len files)
       ∧ Forall (from_category (target_category p)) (body_images body)).
Proof.
  intros Hne Hok.
  destruct (build_puzzle_run D categories now e Hne Hok)
    as (p & e' & files & Hrun & Hp).
  exists p, e', files, (body_of p), (<[puzzle_id p := record_of p]> σ).
  split; [done|]. split; [by apply api_captcha_run|].
  split; [apply (ok_target _ _ _ _ _ Hp)|].
  pose proof (grid_length _ _ _ _ _ Hp) as Hlen.
  pose proof (ok_bounds _ _ _ _ _ Hp) as Hb.
  pose proof (ok_fill _ _ _ _ _ Hp) as Hfill. cbv zeta in Hfill.
  assert (files ≠ []) as Hfne.
  { apply (proj1 (Forall_forall _ _) (catalog_files _ Hok)
             (target_category p, files)), (ok_target_in _ _ _ _ _ Hp). }
  destruct (bounds_feasible files Hfne) as (Hb1 & Hb4 & Hbl).
  cbn [body_images body_of]. rewrite Hlen.
  case_decide as Hshort.
  - destruct Hfill as (extra & Hfl & Hsub & Hxl).
    assert (len (fill p) = len extra) as Hfe.
    { unfold len. by rewrite Hfl, length_fmap. }
    split; [lia|]. split; [lia|]. intros _. split; [lia|].
    apply Forall_forall. intros img Himg.
    rewrite (ok_images _ _ _ _ _ Hp), Hfl, <- fmap_app in Himg.
    apply images_from_elem_of in Himg as (cf & Hcf & Hurl).
    apply list_elem_of_fmap in Hcf as (f & -> & _).
    by exists f.
  - destruct Hfill as [_ Hfl]. split; [lia|]. split; [lia|]. lia.
Qed.

Lemma issued_grid_size_witness :
  ∃ p e' files body σ',
    build_puzzle DEMO_DIFFICULTY Demo.cats_dogs (1000 # 1)%Q Demo.entropy = Ok (p, e')
    ∧ api_captcha DEMO_DIFFICULTY Demo.cats_dogs (1000 # 1)%Q ∅ Demo.entropy
      = Ok ((CaptchaOk body, σ'), e')
    ∧ dict_get Demo.cats_dogs (target_category p) = Some files
    ∧ (len (body_images body) ≤ 6)%Z
    ∧ ((6 - select_count p
        ≤ len (non_target_of Demo.cats_dogs (target_category p)))%Z →
       len (body_images body) = 6%Z)
    ∧ ((len (non_target_of Demo.cats_dogs (target_category p))
        < 6 - select_count p)%Z →
       len (body_images body) = Z.min 6 (len files)
       ∧ Forall (from_category (target_category p)) (body_images body)).
Proof.
  apply (issued_grid_size DEMO_DIFFICULTY Demo.cats_dogs (1000 # 1)%Q ∅ Demo.entropy).
  - done.
  - exact cats_dogs_ok.
Defined.

(** C8 as stated fails. Catalog [{"cats": [a,b,c], "dogs": [d,e,f,g]}],
    target "dogs", [select_count = 2]: four distractor slots are needed, the
    pool holds three pairs and two more "dogs" images remain, five in all,
    yet the grid has four entries: neither six, nor short for want of
    images. *)
Lemma grid_short_although_images_suffice :
  ∃ p e' files,
    build_puzzle DEMO_DIFFICULTY Demo.cats_dogs (1000 # 1)%Q Demo.entropy = Ok (p, e')
    ∧ dict_get Demo.cats_dogs (target_category p) = Some files
    ∧ ¬ (length (images p) = 6
         ∨ (length (images p) < 6
            ∧ length (non_target_of Demo.cats_dogs (target_category p))
              + (length files - length (target_files p))
              < 6 - length (target_files p))).
Proof.
  eexists _, _, _. split; [by vm_compute|].
  split; [by vm_compute|]. vm_compute. intros [|[]]; lia.
Qed.

(** C4, as the code has it. The stored [correct_ids] are exactly the ids
    given to the entries built for [target_files], the images first sampled
    from the target category; each of them is the id of a grid entry showing
    a file of the target category.  When the distractor pool holds at least
    [6 - select_count] pairs, these are all the target-category entries of
    the grid. *)
Theorem issued_correct_ids_are_target_sample (D : Z) (categories : Catalog)
    (now : Q) (σ : gmap string PuzzleRecord) (e : Entropy) :
  categories ≠ [] → catalog_ok categories →
  ∃ p e' body σ' record,
    build_puzzle D categories now e = Ok (p, e')
    ∧ api_captcha D categories now σ e = Ok ((CaptchaOk body, σ'), e')
    ∧ σ' !! body_captcha_id body = Some record
    ∧ correct_ids record
      = list_to_set
          (id <$> images_from (uuid e) (uuid_pos e)
                    (pair (target_category p) <$> target_files p))
    ∧ (∀ i, i ∈ correct_ids record →
         ∃ img, img ∈ body_images body ∧ id img = i
                ∧ from_category (target_category p) img)
    ∧ ((6 - select_count p
        ≤ len (non_target_of categories (target_category p)))%Z →
       ∀ img, img ∈ body_images body →
         from_category (target_category p) img → id img ∈ correct_ids record).
Proof.
  intros Hne Hok.
  destruct (build_puzzle_run D categories now e Hne Hok)
    as (p & e' & files & Hrun & Hp).
  exists p, e', (body_of p), (<[puzzle_id p := record_of p]> σ), (record_of p).
  split; [done|]. split; [by apply api_captcha_run|].
  split; [apply lookup_insert_eq|].
  pose proof (ok_images _ _ _ _ _ Hp) as Himgs.
  rewrite images_from_app in Himgs.
  assert (puzzle_correct_ids p
          = list_to_set
              (id <$> images_from (uuid e) (uuid_pos e)
                        (pair (target_category p) <$> target_files p)))
    as Hids.
  { by rewrite (ok_correct_ids _ _ _ _ _ Hp), images_from_ids, length_fmap. }
  cbn [correct_ids record_of body_images body_of].
  split; [done|]. split.
  - intros i. rewrite Hids, elem_of_list_to_set.
    intros (img & -> & Himg)%list_elem_of_fmap.
    exists img. split; [|split; [done|]].
    + rewrite Himgs. apply elem_of_app. by left.
    + apply images_from_elem_of in Himg as (cf & Hcf & Hurl).
      apply list_elem_of_fmap in Hcf as (f & -> & _). by exists f.
  - intros Hpool img Himg [f Hurl]. rewrite Himgs in Himg.
    apply elem_of_app in Himg as [Himg|Himg].
    + rewrite Hids, elem_of_list_to_set. by apply list_elem_of_fmap_2.
    + exfalso.
      pose proof (ok_fill _ _ _ _ _ Hp) as Hfill. cbv zeta in Hfill.
      rewrite decide_False in Hfill by lia. destruct Hfill as [Hsub _].
      apply images_from_elem_of in Himg as (cf & Hcf & Hurl').
      pose proof (elem_of_submseteq _ _ _ Hcf Hsub) as Hnt.
      apply non_target_elem_of in Hnt as (Hcat & fs & Hin & _).
      apply Hcat.
      pose proof (proj1 (Forall_forall _ _) (catalog_names _ Hok)) as Hnames.
      apply (image_url_category cf.1 (target_category p) cf.2 f).
      * apply (Hnames _ Hin).
      * apply (Hnames _ (ok_target_in _ _ _ _ _ Hp)).
      * by rewrite <- Hurl', <- Hurl.
Qed.

Lemma issued_correct_ids_are_target_sample_witness :
  ∃ p e' body σ' record,
    build_puzzle DEMO_DIFFICULTY Demo.three_kinds (1000 # 1)%Q Demo.entropy = Ok (p, e')
    ∧ api_captcha DEMO_DIFFICULTY Demo.three_kinds (1000 # 1)%Q ∅ Demo.entropy
      = Ok ((CaptchaOk body, σ'), e')
    ∧ σ' !! body_captcha_id body = Some record
    ∧ correct_ids record
      = list_to_set
          (id <$> images_from (uuid Demo.entropy) (uuid_pos Demo.entropy)
                    (pair (target_category p) <$> target_files p))
    ∧ (∀ i, i ∈ correct_ids record →
         ∃ img, img ∈ body_images body ∧ id img = i
                ∧ from_category (target_category p) img)
    ∧ ((6 - select_count p
        ≤ len (non_target_of Demo.three_kinds (target_category p)))%Z →
       ∀ img, img ∈ body_images body →
         from_category (target_category p) img → id img ∈ correct_ids record).
Proof.
  apply (issued_correct_ids_are_target_sample DEMO_DIFFICULTY Demo.three_kinds
           (1000 # 1)%Q ∅ Demo.entropy).
  - done.
  - exact three_kinds_ok.
Defined.

(** C4 as stated fails under the distractor-shortage fallback. Catalog
    [{"cats": [a,b,c], "dogs": [d,e,f,g]}], target "dogs",
    [target_files = [e, f]]: the fallback adds "g" and "d", so the grid
    entry with id "id-2" shows "/images/dogs/g", a file of the target
    category, and its id is not in [correct_ids]. *)
Lemma fallback_entry_not_in_correct_ids :
  ∃ p e' body σ' record img,
    build_puzzle DEMO_DIFFICULTY Demo.cats_dogs (1000 # 1)%Q Demo.entropy = Ok (p, e')
    ∧ api_captcha DEMO_DIFFICULTY Demo.cats_dogs (1000 # 1)%Q ∅ Demo.entropy
      = Ok ((CaptchaOk body, σ'), e')
    ∧ σ' !! body_captcha_id body = Some record
    ∧ target_category p = "dogs"
    ∧ img ∈ body_images body
    ∧ img = {| id := "id-2"; url := "/images/dogs/g" |}
    ∧ from_category (target_category p) img
    ∧ id img ∉ correct_ids record.
Proof.
  eexists _, _, _, _, _, _.
  split; [by vm_compute|]. split; [by vm_compute|].
  split; [by vm_compute|]. split; [by vm_compute|].
  split; [|split; [reflexivity|split]].
  - cbn [body_images]. apply list_elem_of_In. cbn. right. right. by left.
  - by exists "g".
  - cbn [id]. apply (bool_decide_unpack _). by vm_compute.
Qed.

(** ** Difficulty and expiry end to end *)

Lemma api_captcha_inv (D : Z) (categories : Catalog) (now : Q)
    (σ σ' : gmap string PuzzleRecord) (e e' : Entropy) (body : CaptchaBody) :
  categories ≠ [] → catalog_ok categories →
  api_captcha D categories now σ e = Ok ((CaptchaOk body, σ'), e') →
  ∃ p files,
    puzzle_ok D categories e p files
    ∧ body = body_of p ∧ σ' = <[puzzle_id p := record_of p]> σ.
Proof.
  intros Hne Hok Hrun.
  destruct (build_puzzle_run D categories now e Hne Hok)
    as (p & e1 & files & Hp & Hpok).
  rewrite (api_captcha_run D categories now σ e e1 p Hne Hp) in Hrun.
  injection Hrun as <- <- <-. by exists p, files.
Qed.




(** C3, as the code has it. [PyCap.verify] answers "Challenge expired"
    whenever it is called after the [expires_at] of the challenge object it
    is given, whatever the nonce.  [api_verify] hands it an object expiring
    at 9999999999.0, not at the issued time: for a pending puzzle it answers
    "Challenge expired", leaving the store as it was, exactly when the
    selection count matches, the nonce is present and not empty, and the
    clock is past 9999999999. *)
Theorem expiry_is_that_of_the_object_verified (D : Z) (now : Q)
    (data : RequestData) (σ : gmap string PuzzleRecord) (cid : string)
    (record : PuzzleRecord) :
  captcha_id data = Some cid → cid ≠ "" → σ !! cid = Some record →
  (∀ self t ch n,
     (PyCap.expires_at ch < t)%Q →
     PyCap.verify self t ch n = (false, "Challenge expired"))
  ∧ (api_verify D now data σ = (VerifyError "Challenge expired", σ)
     ↔ size (list_to_set (selected_ids data) : gset string)
         = size (correct_ids record)
       ∧ default "" (nonce data) ≠ ""
       ∧ (9999999999 # 1 < now)%Q)
  ∧ ((api_verify D now data σ).1 = VerifyError "Challenge expired" →
     (api_verify D now data σ).2 = σ).
Proof.
  intros Hcid Hid Hrec.
  split; [intros self t ch n Hlt; by apply verify_expired|].
  rewrite (api_verify_pending D now data σ cid record Hcid Hid Hrec).
  cbv zeta.
  destruct (count_mismatch_start (size (correct_ids record))
              (size (list_to_set (selected_ids data) : gset string)))
    as [rest Hrest].
  case_decide as Hsize.
  - case_decide as Hn.
    + split; [|done]. split; [done|]. by intros (_ & ? & _).
    + set (ch' := {| PyCap.challenge := pow_challenge record;
                     PyCap.difficulty := _; PyCap.expires_at := _ |}).
      destruct (Qlt_le_dec (9999999999 # 1) now) as [Hlt|Hle].
      * rewrite (verify_expired (PY_CAP D) now ch' _) by done. cbn.
        split; [|done]. by split.
      * rewrite (verify_unexpired (PY_CAP D) now ch' _) by done.
        destruct (startswith _ _); cbn.
        -- split; [|done]. split; [done|].
           intros (_ & _ & Hlt). by apply Qlt_not_le in Hlt.
        -- split; [|done]. split; [done|].
           intros (_ & _ & Hlt). by apply Qlt_not_le in Hlt.
  - rewrite Hrest. split; [|done]. split; [done|]. by intros [? _].
Qed.

Lemma expiry_is_that_of_the_object_verified_witness :
  (∀ self t ch n,
     (PyCap.expires_at ch < t)%Q →
     PyCap.verify self t ch n = (false, "Challenge expired"))
  ∧ (api_verify DEMO_DIFFICULTY (10000000000 # 1)%Q
       (Demo.request ["a"; "b"] (Some Demo.good_nonce)) Demo.store1
     = (VerifyError "Challenge expired", Demo.store1)
     ↔ size (list_to_set
               (selected_ids (Demo.request ["a"; "b"] (Some Demo.good_nonce)))
             : gset string) = size (correct_ids Demo.pending)
       ∧ default "" (nonce (Demo.request ["a"; "b"] (Some Demo.good_nonce)))
         ≠ ""
       ∧ (9999999999 # 1 < 10000000000 # 1)%Q)
  ∧ ((api_verify DEMO_DIFFICULTY (10000000000 # 1)%Q
        (Demo.request ["a"; "b"] (Some Demo.good_nonce)) Demo.store1).1
     = VerifyError "Challenge expired" →
     (api_verify DEMO_DIFFICULTY (10000000000 # 1)%Q
        (Demo.request ["a"; "b"] (Some Demo.good_nonce)) Demo.store1).2
     = Demo.store1).
Proof.
  apply (expiry_is_that_of_the_object_verified DEMO_DIFFICULTY
           (10000000000 # 1)%Q
           (Demo.request ["a"; "b"] (Some Demo.good_nonce))
           Demo.store1 "c1" Demo.pending).
  - done.
  - done.
  - by vm_compute.
Defined.

(** C3 as stated fails for [api_verify]. A puzzle issued at time 1000 by
    the demo server carries a challenge expiring at 1180; a verification at
    time 2000 with the right selection and a nonce of sufficient difficulty
    answers [{"success": True}], not "Challenge expired". *)
Lemma verify_after_issued_expiry_succeeds :
  ∃ body σ' e',
    api_captcha DEMO_DIFFICULTY Demo.cats_dogs (1000 # 1)%Q ∅ Demo.entropy
    = Ok ((CaptchaOk body, σ'), e')
    ∧ (∀ e ch e1,
         PyCap.issue (PY_CAP DEMO_DIFFICULTY) (1000 # 1)%Q e = Ok (ch, e1) →
         (PyCap.expires_at ch == 1180 # 1)%Q
         ∧ (PyCap.expires_at ch < 2000 # 1)%Q)
    ∧ api_verify DEMO_DIFFICULTY (2000 # 1)%Q
        (Demo.request_for body ["id-0"; "id-1"] Demo.good_nonce) σ'
      = (VerifyResult true, ∅).
Proof.
  eexists _, _, _. split; [by vm_compute|]. split.
  - intros e ch e1 [= <- _]. by vm_compute.
  - by vm_compute.
Qed.

(** * Further properties *)

(** ** The digest *)

Lemma compress_length (h block : list N) :
  length h = 8 → length (SHA256.compress h block) = 8.
Proof.
  intros Hh. unfold SHA256.compress. cbv zeta.
  rewrite length_zip_with. cbn [SHA256.to_list length]. lia.
Qed.

Lemma foldl_compress_length (bs : list (list N)) (h : list N) :
  length h = 8 → length (foldl SHA256.compress h bs) = 8.
Proof.
  revert h. induction bs as [|b bs IH]; intros h Hh; [done|].
  cbn [foldl]. by apply IH, compress_length.
Qed.

Lemma be_bytes_length (n : nat) (x : N) : length (SHA256.be_bytes n x) = n.
Proof. induction n as [|n IH]; cbn; [done|]. by rewrite IH. Qed.

Lemma be_bytes_bound (n : nat) (x : N) :
  Forall (λ b, (b < 256)%N) (SHA256.be_bytes n x).
Proof.
  induction n as [|n IH]; cbn; constructor; [|done].
  change 255%N with (N.ones 8). rewrite N.land_ones.
  by apply N.mod_lt.
Qed.

Lemma digest_length (msg : list N) : length (SHA256.digest msg) = 32.
Proof.
  unfold SHA256.digest. cbv zeta.
  set (h := foldl _ _ _).
  assert (length h = 8) as Hh by (by apply foldl_compress_length).
  clearbody h.
  do 8 (destruct h as [|? h]; [done|]). destruct h; [|done].
  cbn [flat_map]. by rewrite !length_app, !be_bytes_length.
Qed.

Lemma digest_bound (msg : list N) :
  Forall (λ b, (b < 256)%N) (SHA256.digest msg).
Proof.
  unfold SHA256.digest. cbv zeta. generalize (foldl SHA256.compress SHA256.IV
    (SHA256.blocks (length (SHA256.pad msg))
       (SHA256.words (length (SHA256.pad msg)) (SHA256.pad msg)))).
  intros h. induction h as [|w h IH]; cbn [flat_map]; [constructor|].
  apply Forall_app. split; [apply be_bytes_bound|done].
Qed.

Lemma hex_length (bs : list N) :
  String.length (SHA256.hex bs) = 2 * length bs.
Proof. induction bs as [|b bs IH]; cbn; [done|]. rewrite IH. lia. Qed.

Lemma hex_digit_ok (n : N) : (n < 16)%N → is_hex_digit (SHA256.hex_digit n) = true.
Proof.
  intros Hn.
  assert (∃ m, m < 16 ∧ n = N.of_nat m) as (m & Hm & ->)
    by (exists (N.to_nat n); lia).
  do 16 (destruct m as [|m]; [by vm_compute|]). lia.
Qed.

Lemma hex_chars (bs : list N) :
  Forall (λ b, (b < 256)%N) bs → all_chars is_hex_digit (SHA256.hex bs) = true.
Proof.
  induction 1 as [|b bs Hb _ IH]; [done|].
  cbn [SHA256.hex all_chars]. rewrite IH, !hex_digit_ok; [done| |].
  - change 15%N with (N.ones 4). rewrite N.land_ones. by apply N.mod_lt.
  - rewrite N.shiftr_div_pow2. apply N.Div0.div_lt_upper_bound.
    change (2 ^ 4 * 16)%N with 256%N. done.
Qed.

Lemma leading_zeros_le_length (s : string) : leading_zeros s ≤ String.length s.
Proof.
  induction s as [|c s IH]; [done|].
  rewrite leading_zeros_cons. cbn [String.length].
  destruct (Ascii.ascii_dec "0" c); lia.
Qed.

Lemma hash_length_64 (s : string) : String.length (PyCap._hash s) = 64.
Proof.
  unfold PyCap._hash, SHA256.hexdigest. by rewrite hex_length, digest_length.
Qed.

(** X1. [PyCap._hash] always returns 64 characters, each a lower-case
    hexadecimal digit. *)
Theorem hash_is_64_hex_digits (s : string) :
  String.length (PyCap._hash s) = 64
  ∧ all_chars is_hex_digit (PyCap._hash s) = true.
Proof.
  split; [apply hash_length_64|].
  apply hex_chars, digest_bound.
Qed.

(** ** [PyCap.issue] and [PyCap.verify] together *)

Lemma verify_ok_iff (self : PyCap.PyCap) (now : Q) (ch : PyCap.Challenge)
    (nonce : string) :
  (now <= PyCap.expires_at ch)%Q →
  PyCap.verify self now ch nonce = (true, "ok")
  ↔ (PyCap.difficulty ch
     ≤ Z.of_nat (leading_zeros
                   (SHA256.hexdigest (PyCap.challenge ch +:+ ":" +:+ nonce))))%Z.
Proof.
  intros Hle. rewrite (verify_unexpired _ _ _ _ Hle).
  rewrite <- startswith_str_mul_zeros.
  by destruct (startswith _ _).
Qed.

Lemma verify_fst_iff (self : PyCap.PyCap) (now : Q) (ch : PyCap.Challenge)
    (nonce : string) :
  (PyCap.verify self now ch nonce).1 = true
  ↔ PyCap.verify self now ch nonce = (true, "ok").
Proof.
  unfold PyCap.verify. destruct (Qgtb _ _); [done|].
  by destruct (negb _).
Qed.

Example double_sum_is_rounded :
  Qeq (Float64.add_int (1000 # 1) 180) (1180 # 1)
  ∧ Qeq (Float64.add_int (1782579200129453 # 1048576) 180)
        ((1782579200129453 # 1048576) + 180)%Q
  ∧ Qeq (Float64.add_int (9007198635242291 # 4194304) 180)
        ((9007198635242291 # 4194304) + 180 + (1 # 4194304))%Q
  ∧ Qeq (Float64.to_Q (Float64.of_Q (9007198635242291 # 4194304)))
        (9007198635242291 # 4194304)
  ∧ Qeq (Float64.to_Q (Float64.of_Q (1 # 3)))
        (6004799503160661 # 18014398509481984).
Proof. by vm_compute. Qed.


(** X3. A nonce accepted for a challenge is accepted for the same
    challenge text at every lower difficulty and every later expiry. *)
Theorem verify_monotone_in_difficulty (self self' : PyCap.PyCap) (now : Q)
    (ch ch' : PyCap.Challenge) (nonce : string) :
  PyCap.verify self now ch nonce = (true, "ok") →
  PyCap.challenge ch' = PyCap.challenge ch →
  (PyCap.difficulty ch' ≤ PyCap.difficulty ch)%Z →
  (PyCap.expires_at ch <= PyCap.expires_at ch')%Q →
  PyCap.verify self' now ch' nonce = (true, "ok").
Proof.
  intros Hv Hc Hd He.
  destruct (Qlt_le_dec (PyCap.expires_at ch) now) as [Hlt|Hle].
  { by rewrite verify_expired in Hv. }
  apply (verify_ok_iff self now ch nonce Hle) in Hv.
  apply (verify_ok_iff self' now ch' nonce).
  - by apply (Qle_trans _ (PyCap.expires_at ch)).
  - rewrite Hc. lia.
Qed.

Lemma verify_monotone_in_difficulty_witness :
  PyCap.verify (PY_CAP 3) (2000 # 1)%Q
    {| PyCap.challenge := Demo.challenge_text; PyCap.difficulty := 3;
       PyCap.expires_at := (9999999999 # 1)%Q |} Demo.good_nonce
  = (true, "ok").
Proof.
  apply (verify_monotone_in_difficulty (PY_CAP DEMO_DIFFICULTY) (PY_CAP 3)
           (2000 # 1)%Q Demo.challenge_obj
           {| PyCap.challenge := Demo.challenge_text; PyCap.difficulty := 3;
              PyCap.expires_at := (9999999999 # 1)%Q |} Demo.good_nonce);
    by vm_compute.
Defined.

(** X4. A challenge whose difficulty exceeds 64, the length of the digest,
    cannot be solved: [verify] accepts no nonce for it at any time. *)
Theorem verify_unsolvable_above_64 (self : PyCap.PyCap) (now : Q)
    (ch : PyCap.Challenge) (nonce : string) :
  (64 < PyCap.difficulty ch)%Z →
  (PyCap.verify self now ch nonce).1 = false.
Proof.
  intros Hd.
  destruct (Qlt_le_dec (PyCap.expires_at ch) now) as [Hlt|Hle].
  { by rewrite verify_expired. }
  destruct (PyCap.verify self now ch nonce).1 eqn:Hv; [|done].
  apply verify_fst_iff, (verify_ok_iff self now ch nonce Hle) in Hv.
  pose proof (leading_zeros_le_length
                (SHA256.hexdigest (PyCap.challenge ch +:+ ":" +:+ nonce))) as Hlz.
  pose proof (hash_length_64 (PyCap.challenge ch +:+ ":" +:+ nonce)) as Hlen.
  unfold PyCap._hash in Hlen. lia.
Qed.

Lemma verify_unsolvable_above_64_witness :
  (PyCap.verify (PY_CAP 65) (2000 # 1)%Q
     {| PyCap.challenge := Demo.challenge_text; PyCap.difficulty := 65;
        PyCap.expires_at := (9999999999 # 1)%Q |} Demo.good_nonce).1 = false.
Proof.
  apply (verify_unsolvable_above_64 (PY_CAP 65) (2000 # 1)%Q
           {| PyCap.challenge := Demo.challenge_text; PyCap.difficulty := 65;
              PyCap.expires_at := (9999999999 # 1)%Q |} Demo.good_nonce).
  by vm_compute.
Defined.

(** X5. A challenge of difficulty zero or below is no work at all: until
    it expires [verify] accepts every nonce, the empty one included. *)
Theorem verify_nonpositive_difficulty (self : PyCap.PyCap) (now : Q)
    (ch : PyCap.Challenge) (nonce : string) :
  (PyCap.difficulty ch ≤ 0)%Z →
  (now <= PyCap.expires_at ch)%Q →
  PyCap.verify self now ch nonce = (true, "ok").
Proof.
  intros Hd Hle.
  apply (verify_ok_iff self now ch nonce Hle). lia.
Qed.

Lemma verify_nonpositive_difficulty_witness :
  PyCap.verify (PY_CAP (-2)) (2000 # 1)%Q
    {| PyCap.challenge := Demo.challenge_text; PyCap.difficulty := -2;
       PyCap.expires_at := (9999999999 # 1)%Q |} ""
  = (true, "ok").
Proof.
  apply (verify_nonpositive_difficulty (PY_CAP (-2)) (2000 # 1)%Q
           {| PyCap.challenge := Demo.challenge_text; PyCap.difficulty := -2;
              PyCap.expires_at := (9999999999 # 1)%Q |} ""); by vm_compute.
Defined.

(** ** More on [api_verify] and [api_check] *)

Lemma count_mismatch_head (a b : nat) :
  ∃ rest, count_mismatch a b = String "M" (String "u" rest).
Proof. unfold count_mismatch. cbn. by eexists. Qed.

(** X6. [api_verify] answers "Invalid or expired captcha." exactly when
    the request names no pending puzzle: no [captcha_id], an empty one, or
    one that is not a key of the store; the store is then left as it was. *)
Theorem verify_invalid_iff_no_puzzle (D : Z) (now : Q) (data : RequestData)
    (σ : gmap string PuzzleRecord) :
  (api_verify D now data σ).1 = VerifyError "Invalid or expired captcha."
  ↔ names_no_puzzle data σ.
Proof.
  unfold names_no_puzzle, api_verify.
  destruct (captcha_id data) as [cid|]; [|done].
  case_bool_decide as Hid; [by split; [left|]|].
  destruct (σ !! cid) as [record|] eqn:Hrec; [|by split; [right|]].
  split; [|by intros [?|?]].
  intros Hv. exfalso. cbn zeta in Hv.
  destruct (negb _).
  { destruct (count_mismatch_head (size (correct_ids record))
                (size (list_to_set (selected_ids data) : gset string)))
      as [rest Hrest].
    cbn [fst] in Hv. rewrite Hrest in Hv. discriminate. }
  case_bool_decide; [done|].
  unfold PyCap.verify in Hv. destruct (Qgtb _ _); [done|].
  by destruct (negb _).
Qed.

Lemma api_verify_store_cases (D : Z) (now : Q) (data : RequestData)
    (σ : gmap string PuzzleRecord) :
  match api_verify D now data σ with
  | (VerifyError _, σ') => σ' = σ
  | (VerifyResult _, σ') =>
      ∃ cid, captcha_id data = Some cid ∧ is_Some (σ !! cid)
             ∧ σ' = delete cid σ
  end.
Proof.
  unfold api_verify.
  destruct (captcha_id data) as [cid|]; [|done].
  case_bool_decide; [done|].
  destruct (σ !! cid) as [record|] eqn:Hrec; [|done].
  cbn zeta. destruct (negb _); [done|].
  case_bool_decide; [done|].
  destruct (PyCap.verify _ _ _ _) as [[] err]; cbn; [|done].
  exists cid. by rewrite Hrec.
Qed.

(** X7. [api_verify] never adds or alters a record and never touches a
    puzzle other than the one the request names; the named record is gone
    after a [{"success": ...}] answer and still there, unchanged, after an
    error answer. *)
Theorem verify_store_effect (D : Z) (now : Q) (data : RequestData)
    (σ : gmap string PuzzleRecord) :
  (∀ k record, (api_verify D now data σ).2 !! k = Some record →
               σ !! k = Some record)
  ∧ (∀ k, captcha_id data ≠ Some k →
          (api_verify D now data σ).2 !! k = σ !! k)
  ∧ (∀ cid, captcha_id data = Some cid →
       match (api_verify D now data σ).1 with
       | VerifyResult _ => (api_verify D now data σ).2 !! cid = None
       | VerifyError _ => (api_verify D now data σ).2 !! cid = σ !! cid
       end).
Proof.
  pose proof (api_verify_store_cases D now data σ) as Heff.
  destruct (api_verify D now data σ) as [[b|err] σ']; cbn [fst snd].
  - destruct Heff as (cid & Hcid & _ & ->). split; [|split].
    + intros k record Hk. by apply lookup_delete_Some in Hk as [_ ?].
    + intros k Hk. apply lookup_delete_ne. congruence.
    + intros cid' Hcid'. assert (cid' = cid) as -> by congruence.
      apply lookup_delete_eq.
  - by subst σ'.
Qed.

(** X8. Once [api_verify] has answered [{"success": ...}], true or false,
    the puzzle is gone: a later [api_verify] for the same id answers
    "Invalid or expired captcha." and a later [api_check] answers
    [valid = False], whatever else the requests carry. *)
Theorem answered_puzzle_is_retired (D : Z) (now now' : Q)
    (data data' : RequestData) (σ σ' : gmap string PuzzleRecord) (b : bool) :
  api_verify D now data σ = (VerifyResult b, σ') →
  captcha_id data' = captcha_id data →
  api_verify D now' data' σ' = (VerifyError "Invalid or expired captcha.", σ')
  ∧ api_check data' σ' = (check_invalid, σ').
Proof.
  intros Hv Hid.
  pose proof (api_verify_store_cases D now data σ) as Heff.
  rewrite Hv in Heff. destruct Heff as (cid & Hcid & _ & ->).
  rewrite Hcid in Hid. split.
  - apply (api_verify_unknown _ _ _ _ cid Hid), lookup_delete_eq.
  - unfold api_check. rewrite Hid, lookup_delete_eq. by case_bool_decide.
Qed.

Lemma answered_puzzle_is_retired_witness :
  api_verify DEMO_DIFFICULTY (3000 # 1)%Q
    (Demo.request ["a"; "b"] (Some Demo.good_nonce)) ∅
  = (VerifyError "Invalid or expired captcha.", ∅)
  ∧ api_check (Demo.request ["a"; "b"] (Some Demo.good_nonce)) ∅
    = (check_invalid, ∅).
Proof.
  apply (answered_puzzle_is_retired DEMO_DIFFICULTY (2000 # 1)%Q (3000 # 1)%Q
           (Demo.request ["b"; "c"] (Some Demo.good_nonce)) _
           Demo.store1 ∅ false); by vm_compute.
Defined.

(** X9. [api_verify] answers [{"success": True}] only for a pending
    puzzle, a selection whose set of ids equals [correct_ids], and a
    non-empty nonce whose digest has the leading zeros of the difficulty in
    force (the stored one, or [DEFAULT_DIFFICULTY] when that is 0); the
    record is removed by that answer. *)
Theorem verify_success_is_sound (D : Z) (now : Q) (data : RequestData)
    (σ σ' : gmap string PuzzleRecord) :
  api_verify D now data σ = (VerifyResult true, σ') →
  ∃ cid record n,
    captcha_id data = Some cid ∧ cid ≠ "" ∧ σ !! cid = Some record
    ∧ (list_to_set (selected_ids data) : gset string) = correct_ids record
    ∧ nonce data = Some n ∧ n ≠ ""
    ∧ ((if decide (difficulty record = 0%Z) then D else difficulty record)
       ≤ Z.of_nat (leading_zeros
                     (SHA256.hexdigest (pow_challenge record +:+ ":" +:+ n))))%Z
    ∧ σ' = delete cid σ.
Proof.
  intros Hv. unfold api_verify in Hv.
  destruct (captcha_id data) as [cid|]; [|done].
  case_bool_decide as Hid; [done|].
  destruct (σ !! cid) as [record|] eqn:Hrec; [|done].
  cbn zeta in Hv. destruct (negb _); [done|].
  destruct (nonce data) as [n|] eqn:Hn; [|done].
  change (default "" (Some n)) with n in Hv.
  case_bool_decide as Hne; [done|].
  destruct (PyCap.verify _ _ _ _) as [[] err] eqn:Hpow; [|done].
  cbn in Hv. injection Hv as Hsel <-.
  apply bool_decide_eq_true_1 in Hsel.
  exists cid, record, n. repeat (split; [done|]). split; [|done].
  assert ((PyCap.verify (PY_CAP D) now
             {| PyCap.challenge := pow_challenge record;
                PyCap.difficulty :=
                  if bool_decide (difficulty record = 0%Z) then D
                  else difficulty record;
                PyCap.expires_at := (9999999999 # 1)%Q |} n).1 = true) as Hok
    by (by rewrite Hpow).
  apply verify_fst_iff in Hok.
  destruct (Qlt_le_dec (9999999999 # 1) now) as [Hlt|Hle].
  { by rewrite verify_expired in Hok. }
  apply verify_ok_iff in Hok; [|done]. cbn in Hok.
  by case_bool_decide; case_decide.
Qed.

Lemma verify_success_is_sound_witness :
  ∃ cid record n,
    captcha_id (Demo.request ["b"; "a"] (Some Demo.good_nonce)) = Some cid
    ∧ cid ≠ "" ∧ Demo.store1 !! cid = Some record
    ∧ (list_to_set
         (selected_ids (Demo.request ["b"; "a"] (Some Demo.good_nonce)))
         : gset string) = correct_ids record
    ∧ nonce (Demo.request ["b"; "a"] (Some Demo.good_nonce)) = Some n
    ∧ n ≠ ""
    ∧ ((if decide (difficulty record = 0%Z) then DEMO_DIFFICULTY
        else difficulty record)
       ≤ Z.of_nat (leading_zeros
                     (SHA256.hexdigest (pow_challenge record +:+ ":" +:+ n))))%Z
    ∧ (∅ : gmap string PuzzleRecord) = delete cid Demo.store1.
Proof.
  apply (verify_success_is_sound DEMO_DIFFICULTY (2000 # 1)%Q
           (Demo.request ["b"; "a"] (Some Demo.good_nonce)) Demo.store1 ∅).
  by vm_compute.
Defined.



(** X11. Only the set of selected ids matters: two requests whose
    [selected_ids] lists have the same elements, in any order and with any
    repetitions, get the same answer from [api_verify] and from
    [api_check]. *)
Theorem selection_is_read_as_a_set (D : Z) (now : Q) (data data' : RequestData)
    (σ : gmap string PuzzleRecord) :
  (∀ x, x ∈ selected_ids data ↔ x ∈ selected_ids data') →
  captcha_id data' = captcha_id data → nonce data' = nonce data →
  api_verify D now data' σ = api_verify D now data σ
  ∧ api_check data' σ = api_check data σ.
Proof.
  intros Hsel Hid Hn.
  assert ((list_to_set (selected_ids data') : gset string)
          = list_to_set (selected_ids data)) as Hset.
  { apply set_eq. intros x. rewrite !elem_of_list_to_set. by rewrite Hsel. }
  unfold api_verify, api_check. by rewrite Hid, Hn, Hset.
Qed.

Lemma selection_is_read_as_a_set_witness :
  api_verify DEMO_DIFFICULTY (2000 # 1)%Q
    (Demo.request ["b"; "a"; "b"; "b"] (Some Demo.good_nonce)) Demo.store1
  = api_verify DEMO_DIFFICULTY (2000 # 1)%Q
      (Demo.request ["a"; "b"] (Some Demo.good_nonce)) Demo.store1
  ∧ api_check (Demo.request ["b"; "a"; "b"; "b"] (Some Demo.good_nonce))
      Demo.store1
    = api_check (Demo.request ["a"; "b"] (Some Demo.good_nonce)) Demo.store1.
Proof.
  apply (selection_is_read_as_a_set DEMO_DIFFICULTY (2000 # 1)%Q
           (Demo.request ["a"; "b"] (Some Demo.good_nonce))
           (Demo.request ["b"; "a"; "b"; "b"] (Some Demo.good_nonce))
           Demo.store1); [|done|done].
  intros x. cbn. rewrite !elem_of_cons, elem_of_nil. tauto.
Defined.

(** X12. [api_check] answers [valid = False] exactly when the request
    names no pending puzzle (no [captcha_id], an empty one, or one that is
    not a key of the store); the answer then carries the error text and no
    PoW block. *)
Theorem check_invalid_iff_no_puzzle (data : RequestData)
    (σ : gmap string PuzzleRecord) :
  (valid (api_check data σ).1 = false ↔ names_no_puzzle data σ)
  ∧ (valid (api_check data σ).1 = false →
     (api_check data σ).1 = check_invalid).
Proof.
  unfold names_no_puzzle, api_check.
  destruct (captcha_id data) as [cid|]; [|done].
  case_bool_decide as Hid; [by split; [split; [left|]|]|].
  destruct (σ !! cid) as [record|] eqn:Hrec; cbn.
  - split; [|done]. split; [done|]. by intros [?|?].
  - split; [|done]. split; [by right|done].
Qed.

(** X13. [api_check] tells, without any proof of work, what
    [api_verify] would answer: whenever [api_verify] answers
    [{"success": b}], [api_check] on the same store and request answers
    [valid = True] and [correct = b]. *)
Theorem check_predicts_verify (D : Z) (now : Q) (data : RequestData)
    (σ σ' : gmap string PuzzleRecord) (b : bool) :
  api_verify D now data σ = (VerifyResult b, σ') →
  valid (api_check data σ).1 = true ∧ correct (api_check data σ).1 = b.
Proof.
  intros Hv. unfold api_verify in Hv. unfold api_check.
  destruct (captcha_id data) as [cid|]; [|done].
  case_bool_decide as Hid; [done|].
  destruct (σ !! cid) as [record|] eqn:Hrec; [|done].
  cbn zeta in Hv. destruct (negb _); [done|].
  case_bool_decide; [done|].
  destruct (PyCap.verify _ _ _ _) as [[] err]; [|done].
  cbn in Hv |- *. split; [done|]. congruence.
Qed.

Lemma check_predicts_verify_witness :
  valid (api_check (Demo.request ["a"; "c"] (Some Demo.good_nonce))
           Demo.store1).1 = true
  ∧ correct (api_check (Demo.request ["a"; "c"] (Some Demo.good_nonce))
               Demo.store1).1 = false.
Proof.
  apply (check_predicts_verify DEMO_DIFFICULTY (2000 # 1)%Q
           (Demo.request ["a"; "c"] (Some Demo.good_nonce)) Demo.store1 ∅ false).
  by vm_compute.
Defined.

(** X14. [api_verify] answers "Missing PoW nonce." exactly when the
    request names a pending puzzle, selects as many distinct ids as
    [correct_ids] has, and carries no nonce or an empty one. *)
Theorem verify_missing_nonce_iff (D : Z) (now : Q) (data : RequestData)
    (σ : gmap string PuzzleRecord) (cid : string) (record : PuzzleRecord) :
  captcha_id data = Some cid → cid ≠ "" → σ !! cid = Some record →
  (api_verify D now data σ).1 = VerifyError "Missing PoW nonce."
  ↔ size (list_to_set (selected_ids data) : gset string)
      = size (correct_ids record)
    ∧ default "" (nonce data) = "".
Proof.
  intros Hcid Hid Hrec.
  rewrite (api_verify_pending D now data σ cid record Hcid Hid Hrec).
  cbv zeta. case_decide as Hsize.
  - case_decide as Hn; [done|].
    split; [|by intros [_ ?]]. intros Hv. exfalso.
    unfold PyCap.verify in Hv. destruct (Qgtb _ _); [done|].
    by destruct (negb _).
  - split; [|by intros [? _]]. intros Hv. exfalso. cbn [fst] in Hv.
    destruct (count_mismatch_head (size (correct_ids record))
                (size (list_to_set (selected_ids data) : gset string)))
      as [rest Hrest].
    rewrite Hrest in Hv. discriminate.
Qed.

Lemma verify_missing_nonce_iff_witness :
  (api_verify DEMO_DIFFICULTY (2000 # 1)%Q
     (Demo.request ["a"; "b"] (Some "")) Demo.store1).1
  = VerifyError "Missing PoW nonce."
  ↔ size (list_to_set (selected_ids (Demo.request ["a"; "b"] (Some "")))
          : gset string) = size (correct_ids Demo.pending)
    ∧ default "" (nonce (Demo.request ["a"; "b"] (Some ""))) = "".
Proof.
  apply (verify_missing_nonce_iff DEMO_DIFFICULTY (2000 # 1)%Q
           (Demo.request ["a"; "b"] (Some "")) Demo.store1 "c1" Demo.pending);
    by vm_compute.
Defined.

(** ** More on issuance *)

Lemma submseteq_NoDup_inv {A} (l k : list A) : l ⊆+ k → NoDup k → NoDup l.
Proof.
  intros Hsub Hk. destruct (submseteq_Permutation _ _ Hsub) as [r Hr].
  rewrite Hr in Hk. by apply NoDup_app in Hk as [? _].
Qed.

Lemma image_url_inj (c1 c2 f1 f2 : string) :
  has_slash c1 = false → has_slash c2 = false →
  image_url c1 f1 = image_url c2 f2 → c1 = c2 ∧ f1 = f2.
Proof.
  intros H1 H2 Heq.
  pose proof (image_url_category c1 c2 f1 f2 H1 H2 Heq) as ->.
  split; [done|]. unfold image_url in Heq.
  by repeat apply String.app_inj in Heq.
Qed.

Lemma images_from_urls (u : nat → string) (pos : nat)
    (l : list (string * string)) :
  url <$> images_from u pos l = (λ cf, image_url cf.1 cf.2) <$> l.
Proof.
  revert pos. induction l as [|cf l IH]; intros pos; [done|].
  cbn. by rewrite IH.
Qed.

Lemma NoDup_keys_functional {A B} (l : list (A * B)) (k : A) (v1 v2 : B) :
  NoDup l.*1 → (k, v1) ∈ l → (k, v2) ∈ l → v1 = v2.
Proof.
  induction l as [|[k' v'] l IH]; cbn; intros Hnd H1 H2.
  - by apply not_elem_of_nil in H1.
  - apply NoDup_cons in Hnd as [Hk' Hnd].
    apply elem_of_cons in H1 as [H1|H1];
      apply elem_of_cons in H2 as [H2|H2]; simplify_eq; try done.
    + exfalso. apply Hk'. by apply (list_elem_of_fmap_2' fst _ (k', v2)).
    + exfalso. apply Hk'. by apply (list_elem_of_fmap_2' fst _ (k', v1)).
    + by apply IH.
Qed.

Lemma non_target_NoDup (categories : Catalog) (target : string) :
  catalog_ok categories → NoDup (non_target_of categories target).
Proof.
  intros [Hkeys _ Hfiles]. unfold non_target_of. apply NoDup_bind.
  - intros [c1 fs1] [c2 fs2] y Hin1 Hin2 Hy1 Hy2. cbn in Hy1, Hy2.
    destruct (decide (c1 = target)); [by apply not_elem_of_nil in Hy1|].
    destruct (decide (c2 = target)); [by apply not_elem_of_nil in Hy2|].
    apply list_elem_of_fmap in Hy1 as (f1 & -> & _).
    apply list_elem_of_fmap in Hy2 as (f2 & [= <- _] & _).
    f_equal. by apply (NoDup_keys_functional categories c1).
  - intros [c fs] Hin. cbn. case_decide; [constructor|].
    apply (NoDup_fmap_2 _).
    by apply (proj1 (Forall_forall _ _) Hfiles (c, fs)).
  - by apply (NoDup_fmap_1 fst).
Qed.

(** The pairs put on the grid are pairwise distinct and their categories
    are keys of the catalog. *)
Lemma chosen_pairs (D : Z) (categories : Catalog) (e : Entropy) (p : Puzzle)
    (files : list string) :
  catalog_ok categories → puzzle_ok D categories e p files →
  NoDup ((pair (target_category p) <$> target_files p) ++ fill p)
  ∧ ∀ cf, cf ∈ (pair (target_category p) <$> target_files p) ++ fill p →
          has_slash cf.1 = false.
Proof.
  intros Hok Hp.
  pose proof (proj1 (Forall_forall _ _) (catalog_names _ Hok)) as Hnames.
  pose proof (proj1 (Forall_forall _ _) (catalog_files _ Hok) _
                (ok_target_in _ _ _ _ _ Hp)) as [_ Hnd]. cbn in Hnd.
  pose proof (submseteq_NoDup_inv _ _ (ok_target_files _ _ _ _ _ Hp) Hnd)
    as Htf.
  pose proof (Hnames _ (ok_target_in _ _ _ _ _ Hp)) as Htarget. cbn in Htarget.
  pose proof (ok_fill _ _ _ _ _ Hp) as Hfill. cbv zeta in Hfill.
  case_decide as Hshort.
  - destruct Hfill as (extra & -> & Hsub & _). rewrite <- fmap_app. split.
    + apply (NoDup_fmap_2 _). apply NoDup_app. split; [done|]. split.
      * intros x Hx Hx'. pose proof (elem_of_submseteq _ _ _ Hx' Hsub) as Hf.
        by apply list_elem_of_filter in Hf as [Hn _].
      * apply (submseteq_NoDup_inv _ _ Hsub). by apply NoDup_filter.
    + by intros cf (f & -> & _)%list_elem_of_fmap.
  - destruct Hfill as [Hsub _]. split.
    + apply NoDup_app. split; [by apply (NoDup_fmap_2 _)|]. split.
      * intros cf (f & -> & _)%list_elem_of_fmap Hcf.
        pose proof (elem_of_submseteq _ _ _ Hcf Hsub) as Hnt.
        by apply non_target_elem_of in Hnt as [Hne _].
      * apply (submseteq_NoDup_inv _ _ Hsub). by apply non_target_NoDup.
    + intros cf [(f & -> & _)%list_elem_of_fmap|Hcf]%elem_of_app; [done|].
      pose proof (elem_of_submseteq _ _ _ Hcf Hsub) as Hnt.
      apply non_target_elem_of in Hnt as (_ & fs & Hin & _).
      apply (Hnames _ Hin).
Qed.

(** X15. [api_captcha] raises nothing on a well-formed catalog: it answers
    the error "No categories with images found." exactly when the catalog
    is empty, leaving the store and the entropy source untouched, and a
    puzzle otherwise. *)
Theorem captcha_never_raises (D : Z) (categories : Catalog) (now : Q)
    (σ : gmap string PuzzleRecord) (e : Entropy) :
  catalog_ok categories →
  match api_captcha D categories now σ e with
  | Ok ((CaptchaError err, σ'), e') =>
      categories = [] ∧ err = "No categories with images found."
      ∧ σ' = σ ∧ e' = e
  | Ok ((CaptchaOk _, _), _) => categories ≠ []
  | Raise _ => False
  end.
Proof.
  intros Hok. destruct categories as [|c cs]; [done|].
  destruct (build_puzzle_run D (c :: cs) now e) as (p & e' & files & Hp & _);
    [done|done|].
  by rewrite (api_captcha_run D (c :: cs) now σ e e' p).
Qed.

Lemma captcha_never_raises_witness :
  match api_captcha DEMO_DIFFICULTY Demo.three_kinds (1000 # 1)%Q ∅
          Demo.entropy with
  | Ok ((CaptchaError err, σ'), e') =>
      Demo.three_kinds = [] ∧ err = "No categories with images found."
      ∧ σ' = ∅ ∧ e' = Demo.entropy
  | Ok ((CaptchaOk _, _), _) => Demo.three_kinds ≠ []
  | Raise _ => False
  end.
Proof.
  apply (captcha_never_raises DEMO_DIFFICULTY Demo.three_kinds (1000 # 1)%Q
           ∅ Demo.entropy).
  exact three_kinds_ok.
Defined.

(** X16. Issuing a puzzle writes one store entry, under the returned
    [captcha_id], and changes no other; the entry holds the challenge text
    and difficulty that the answer announces, and that difficulty is
    [DEFAULT_DIFFICULTY]. *)
Theorem captcha_store_effect (D : Z) (categories : Catalog) (now : Q)
    (σ σ' : gmap string PuzzleRecord) (e e' : Entropy) (body : CaptchaBody) :
  catalog_ok categories →
  api_captcha D categories now σ e = Ok ((CaptchaOk body, σ'), e') →
  ∃ record,
    σ' = <[body_captcha_id body := record]> σ
    ∧ (∀ k, k ≠ body_captcha_id body → σ' !! k = σ !! k)
    ∧ pow_challenge record = pow_block_challenge (body_pow body)
    ∧ difficulty record = pow_block_difficulty (body_pow body)
    ∧ difficulty record = D
    ∧ algo (body_pow body) = "sha256-prefix-zeros".
Proof.
  intros Hok Hrun.
  assert (categories ≠ []) as Hne by (by intros ->).
  destruct (api_captcha_inv _ _ _ _ _ _ _ _ Hne Hok Hrun)
    as (p & files & Hp & -> & ->).
  exists (record_of p). split; [done|]. split.
  - intros k Hk. by apply lookup_insert_ne.
  - repeat (split; [done|]). split; [|done].
    apply (ok_difficulty _ _ _ _ _ Hp).
Qed.

Lemma captcha_store_effect_witness :
  ∃ body σ' e',
    api_captcha DEMO_DIFFICULTY Demo.cats_dogs (1000 # 1)%Q Demo.store1
      Demo.entropy = Ok ((CaptchaOk body, σ'), e')
    ∧ ∃ record,
        σ' = <[body_captcha_id body := record]> Demo.store1
        ∧ (∀ k, k ≠ body_captcha_id body → σ' !! k = Demo.store1 !! k)
        ∧ pow_challenge record = pow_block_challenge (body_pow body)
        ∧ difficulty record = pow_block_difficulty (body_pow body)
        ∧ difficulty record = DEMO_DIFFICULTY
        ∧ algo (body_pow body) = "sha256-prefix-zeros".
Proof.
  eexists _, _, _. split; [by vm_compute|].
  eapply (captcha_store_effect DEMO_DIFFICULTY Demo.cats_dogs (1000 # 1)%Q
            Demo.store1 _ Demo.entropy).
  - exact cats_dogs_ok.
  - by vm_compute.
Defined.

(** X17. A puzzle just issued can be checked: [api_check] with the
    returned [captcha_id] answers [valid = True], repeats the PoW block of
    the issuance answer, and says whether the selection is the stored
    [correct_ids]; the store stays as issuance left it. *)
Theorem issued_puzzle_can_be_checked (D : Z) (categories : Catalog) (now : Q)
    (σ σ' : gmap string PuzzleRecord) (e e' : Entropy) (body : CaptchaBody)
    (data : RequestData) :
  catalog_ok categories →
  api_captcha D categories now σ e = Ok ((CaptchaOk body, σ'), e') →
  body_captcha_id body ≠ "" →
  captcha_id data = Some (body_captcha_id body) →
  ∃ record,
    σ' !! body_captcha_id body = Some record
    ∧ api_check data σ'
      = ({| valid := true;
            correct := bool_decide ((list_to_set (selected_ids data)
                                     : gset string) = correct_ids record);
            check_error := None;
            check_pow := Some (body_pow body) |}, σ').
Proof.
  intros Hok Hrun Hid Hcid.
  assert (categories ≠ []) as Hne by (by intros ->).
  destruct (api_captcha_inv _ _ _ _ _ _ _ _ Hne Hok Hrun)
    as (p & files & Hp & -> & ->).
  exists (record_of p). split; [apply lookup_insert_eq|].
  by rewrite (api_check_pending data _ (puzzle_id p) (record_of p) Hcid Hid
                (lookup_insert_eq _ _ _)).
Qed.

Lemma issued_puzzle_can_be_checked_witness :
  ∃ body σ' e',
    api_captcha DEMO_DIFFICULTY Demo.cats_dogs (1000 # 1)%Q ∅ Demo.entropy
    = Ok ((CaptchaOk body, σ'), e')
    ∧ ∃ record,
        σ' !! body_captcha_id body = Some record
        ∧ api_check (Demo.request_for body ["id-1"] "") σ'
          = ({| valid := true;
                correct :=
                  bool_decide
                    ((list_to_set
                        (selected_ids (Demo.request_for body ["id-1"] ""))
                      : gset string) = correct_ids record);
                check_error := None;
                check_pow := Some (body_pow body) |}, σ').
Proof.
  eexists _, _, _. split; [by vm_compute|].
  eapply (issued_puzzle_can_be_checked DEMO_DIFFICULTY Demo.cats_dogs
            (1000 # 1)%Q ∅ _ Demo.entropy).
  - exact cats_dogs_ok.
  - by vm_compute.
  - by vm_compute.
  - done.
Defined.

(** X18. With collision-free uuids, the ids of the grid entries are
    pairwise distinct and none of them is the [captcha_id]. *)
Theorem grid_ids_distinct (D : Z) (categories : Catalog) (now : Q)
    (σ σ' : gmap string PuzzleRecord) (e e' : Entropy) (body : CaptchaBody) :
  catalog_ok categories → Inj (=) (=) (uuid e) →
  api_captcha D categories now σ e = Ok ((CaptchaOk body, σ'), e') →
  NoDup (id <$> body_images body)
  ∧ body_captcha_id body ∉ id <$> body_images body.
Proof.
  intros Hok Hinj Hrun.
  assert (categories ≠ []) as Hne by (by intros ->).
  destruct (api_captcha_inv _ _ _ _ _ _ _ _ Hne Hok Hrun)
    as (p & files & Hp & -> & ->).
  cbn [body_images body_captcha_id body_of].
  rewrite (ok_images _ _ _ _ _ Hp), images_from_ids, (ok_id _ _ _ _ _ Hp).
  rewrite length_app, length_fmap. split.
  - apply (NoDup_fmap_2 _), NoDup_seq.
  - intros Hin. apply (list_elem_of_fmap_inj_2 _) in Hin.
    apply elem_of_seq in Hin. lia.
Qed.

Lemma grid_ids_distinct_witness :
  ∃ body σ' e',
    api_captcha DEMO_DIFFICULTY Demo.cats_dogs (1000 # 1)%Q ∅ Demo.entropy
    = Ok ((CaptchaOk body, σ'), e')
    ∧ NoDup (id <$> body_images body)
    ∧ body_captcha_id body ∉ id <$> body_images body.
Proof.
  eexists _, _, _. split; [by vm_compute|].
  eapply (grid_ids_distinct DEMO_DIFFICULTY Demo.cats_dogs (1000 # 1)%Q ∅ _
            Demo.entropy).
  - exact cats_dogs_ok.
  - exact demo_uuid_inj.
  - by vm_compute.
Defined.

(** X19. On a well-formed catalog no picture appears twice in a grid: the
    urls of the entries are pairwise distinct, in the fallback as well. *)
Theorem grid_pictures_distinct (D : Z) (categories : Catalog) (now : Q)
    (σ σ' : gmap string PuzzleRecord) (e e' : Entropy) (body : CaptchaBody) :
  catalog_ok categories →
  api_captcha D categories now σ e = Ok ((CaptchaOk body, σ'), e') →
  NoDup (url <$> body_images body).
Proof.
  intros Hok Hrun.
  assert (categories ≠ []) as Hne by (by intros ->).
  destruct (api_captcha_inv _ _ _ _ _ _ _ _ Hne Hok Hrun)
    as (p & files & Hp & -> & ->).
  cbn [body_images body_of].
  rewrite (ok_images _ _ _ _ _ Hp), images_from_urls.
  destruct (chosen_pairs _ _ _ _ _ Hok Hp) as [Hnd Hns].
  apply NoDup_fmap_2_strong; [|done].
  intros [c1 f1] [c2 f2] H1 H2 Heq. cbn in Heq.
  destruct (image_url_inj c1 c2 f1 f2 (Hns _ H1) (Hns _ H2) Heq) as [-> ->].
  done.
Qed.

Lemma grid_pictures_distinct_witness :
  ∃ body σ' e',
    api_captcha DEMO_DIFFICULTY Demo.cats_dogs (1000 # 1)%Q ∅ Demo.entropy
    = Ok ((CaptchaOk body, σ'), e')
    ∧ NoDup (url <$> body_images body).
Proof.
  eexists _, _, _. split; [by vm_compute|].
  eapply (grid_pictures_distinct DEMO_DIFFICULTY Demo.cats_dogs (1000 # 1)%Q
            ∅ _ Demo.entropy).
  - exact cats_dogs_ok.
  - by vm_compute.
Defined.



(** ** The directory scan *)

Example scan_tree :
  Scan._discover_categories Demo.tree "/srv/img"
  = [("cat_illusion", ["one.PNG"; "two.jpeg"])].
Proof. by vm_compute. Qed.

Example splitext_examples :
  Scan.splitext_ext "a/b.c/name" = "" ∧ Scan.splitext_ext "x.tar.gz" = ".gz"
  ∧ Scan.splitext_ext "...png" = "" ∧ Scan.splitext_ext "dir/.env.png" = ".png"
  ∧ Scan.path_join "/srv/img/" "a" = "/srv/img/a"
  ∧ Scan.path_join "/srv/img" "/etc" = "/etc"
  ∧ Scan.display_label "big_cat_illusion" = "big cat"
  ∧ Scan.str_replace "aaa" "aa" "b" = "ba"
  ∧ Scan.str_replace "ab" "" "-" = "-a-b-".
Proof. by vm_compute. Qed.

Lemma dict_set_elem_of (d : Catalog) (k : string) (v : list string)
    (x : string * list string) :
  x ∈ Scan.dict_set d k v → x = (k, v) ∨ x ∈ d.
Proof.
  induction d as [|[k' v'] d IH]; cbn.
  - intros Hx%list_elem_of_singleton. by left.
  - case_decide as Hk.
    + intros [->|Hx]%elem_of_cons; [by left|]. right. by right.
    + intros [->|Hx]%elem_of_cons; [right; by left|].
      destruct (IH Hx) as [->|?]; [by left|]. right. by right.
Qed.

Lemma dict_set_keys (d : Catalog) (k : string) (v : list string) :
  (Scan.dict_set d k v).*1 = if decide (k ∈ d.*1) then d.*1 else d.*1 ++ [k].
Proof.
  induction d as [|[k' v'] d IH]; cbn; [done|].
  destruct (decide (k' = k)) as [->|Hk].
  - cbn. rewrite decide_True; [done|]. by left.
  - cbn. rewrite IH. destruct (decide (k ∈ d.*1)) as [Hin|Hnin].
    + rewrite decide_True; [done|]. by right.
    + rewrite decide_False; [done|].
      intros [?|?]%elem_of_cons; congruence.
Qed.

Lemma dict_set_key_in (d : Catalog) (k : string) (v : list string) :
  k ∈ (Scan.dict_set d k v).*1.
Proof.
  rewrite dict_set_keys. case_decide; [done|].
  apply elem_of_app. right. by left.
Qed.

Lemma dict_set_keys_grow (d : Catalog) (k k' : string) (v : list string) :
  k' ∈ d.*1 → k' ∈ (Scan.dict_set d k v).*1.
Proof.
  intros Hin. rewrite dict_set_keys. case_decide; [done|].
  apply elem_of_app. by left.
Qed.

Lemma dict_set_NoDup (d : Catalog) (k : string) (v : list string) :
  NoDup d.*1 → NoDup (Scan.dict_set d k v).*1.
Proof.
  intros Hnd. rewrite dict_set_keys. case_decide as Hin; [done|].
  apply NoDup_app. split; [done|]. split; [|apply NoDup_singleton].
  intros x Hx ->%list_elem_of_singleton. done.
Qed.

(** What a turn of the scan loop writes for [entry], if anything. *)
Lemma scan_entry_cases (fs : Scan.FileSystem) (root : string)
    (acc : Catalog) (entry : string) :
  let files := filter (λ f, Scan.is_image_name f = true)
                 (Scan.listdir fs (Scan.path_join root entry)) in
  (Scan.scan_entry fs root acc entry = acc
   ∧ (Scan.isdir fs (Scan.path_join root entry) = false ∨ files = []))
  ∨ (Scan.scan_entry fs root acc entry = Scan.dict_set acc entry files
     ∧ Scan.isdir fs (Scan.path_join root entry) = true ∧ files ≠ []).
Proof.
  cbv zeta. unfold Scan.scan_entry.
  destruct (Scan.isdir fs _); cbn [negb]; [|left; split; [done|by left]].
  destruct (filter _ _) as [|f files]; [left; split; [done|by right]|].
  right. done.
Qed.

Lemma scan_fold_sound (fs : Scan.FileSystem) (root : string)
    (entries : list string) (acc : Catalog) (x : string * list string) :
  x ∈ foldl (Scan.scan_entry fs root) acc entries →
  x ∈ acc
  ∨ (x.1 ∈ entries
     ∧ Scan.isdir fs (Scan.path_join root x.1) = true
     ∧ x.2 = filter (λ f, Scan.is_image_name f = true)
               (Scan.listdir fs (Scan.path_join root x.1))
     ∧ x.2 ≠ []).
Proof.
  revert acc. induction entries as [|entry entries IH]; intros acc; cbn.
  { by left. }
  intros Hx. destruct (IH _ Hx) as [Hacc|(Hin & ?)].
  - destruct (scan_entry_cases fs root acc entry)
      as [[Heq _]|(Heq & Hdir & Hne)]; rewrite Heq in Hacc; [by left|].
    apply dict_set_elem_of in Hacc as [->|?]; [|by left].
    right. cbn. split; [by left|done].
  - right. split; [by right|done].
Qed.

Lemma scan_fold_NoDup (fs : Scan.FileSystem) (root : string)
    (entries : list string) (acc : Catalog) :
  NoDup acc.*1 → NoDup (foldl (Scan.scan_entry fs root) acc entries).*1.
Proof.
  revert acc. induction entries as [|entry entries IH]; intros acc Hnd;
    cbn; [done|].
  apply IH.
  destruct (scan_entry_cases fs root acc entry) as [[-> _]|(-> & _)];
    [done|by apply dict_set_NoDup].
Qed.

Lemma scan_fold_keys_grow (fs : Scan.FileSystem) (root : string)
    (entries : list string) (acc : Catalog) (k : string) :
  k ∈ acc.*1 → k ∈ (foldl (Scan.scan_entry fs root) acc entries).*1.
Proof.
  revert acc. induction entries as [|entry entries IH]; intros acc Hk;
    cbn; [done|].
  apply IH.
  destruct (scan_entry_cases fs root acc entry) as [[-> _]|(-> & _)];
    [done|by apply dict_set_keys_grow].
Qed.

Lemma scan_fold_complete (fs : Scan.FileSystem) (root : string)
    (entries : list string) (acc : Catalog) (entry f : string) :
  entry ∈ entries →
  Scan.isdir fs (Scan.path_join root entry) = true →
  f ∈ Scan.listdir fs (Scan.path_join root entry) →
  Scan.is_image_name f = true →
  entry ∈ (foldl (Scan.scan_entry fs root) acc entries).*1.
Proof.
  intros Hin Hdir Hf Himg. revert acc.
  induction entries as [|entry' entries IH]; intros acc.
  { by apply not_elem_of_nil in Hin. }
  cbn. apply elem_of_cons in Hin as [<-|Hin]; [|by apply IH].
  apply scan_fold_keys_grow.
  destruct (scan_entry_cases fs root acc entry)
    as [[_ [Hno|Hno]]|(-> & _)]; [congruence| |apply dict_set_key_in].
  exfalso. apply (filter_nil_not_elem_of _ _ f Hno); [done|done].
Qed.

(** X21. Every category reported by [_discover_categories] is a name
    listed under the root whose path is a directory, and its files are
    exactly the names in that directory that carry an image extension, in
    listing order, at least one of them; no category is reported twice. *)
Theorem discovered_categories_sound (fs : Scan.FileSystem) (root cat : string)
    (files : list string) :
  (cat, files) ∈ Scan._discover_categories fs root →
  Scan.isdir fs root = true
  ∧ cat ∈ Scan.listdir fs root
  ∧ Scan.isdir fs (Scan.path_join root cat) = true
  ∧ files = filter (λ f, Scan.is_image_name f = true)
              (Scan.listdir fs (Scan.path_join root cat))
  ∧ files ≠ []
  ∧ NoDup (Scan._discover_categories fs root).*1.
Proof.
  unfold Scan._discover_categories.
  destruct (Scan.isdir fs root); cbn [negb];
    [|by intros ?%not_elem_of_nil].
  intros Hin. split; [done|].
  apply scan_fold_sound in Hin as [Hnil|(? & ? & ? & ?)];
    [by apply not_elem_of_nil in Hnil|].
  repeat (split; [done|]). apply scan_fold_NoDup. constructor.
Qed.

Lemma discovered_categories_sound_witness :
  Scan.isdir Demo.tree "/srv/img" = true
  ∧ "cat_illusion" ∈ Scan.listdir Demo.tree "/srv/img"
  ∧ Scan.isdir Demo.tree (Scan.path_join "/srv/img" "cat_illusion") = true
  ∧ ["one.PNG"; "two.jpeg"]
    = filter (λ f, Scan.is_image_name f = true)
        (Scan.listdir Demo.tree (Scan.path_join "/srv/img" "cat_illusion"))
  ∧ ["one.PNG"; "two.jpeg"] ≠ []
  ∧ NoDup (Scan._discover_categories Demo.tree "/srv/img").*1.
Proof.
  apply (discovered_categories_sound Demo.tree "/srv/img" "cat_illusion"
           ["one.PNG"; "two.jpeg"]).
  rewrite scan_tree. by left.
Defined.

Lemma discovered_complete_aux (fs : Scan.FileSystem) (root entry f : string) :
  Scan.isdir fs root = true →
  entry ∈ Scan.listdir fs root →
  Scan.isdir fs (Scan.path_join root entry) = true →
  f ∈ Scan.listdir fs (Scan.path_join root entry) →
  Scan.is_image_name f = true →
  ∃ files,
    dict_get (Scan._discover_categories fs root) entry = Some files
    ∧ f ∈ files.
Proof.
  intros Hroot Hin Hdir Hf Himg.
  pose proof (scan_fold_complete fs root (Scan.listdir fs root) [] entry f
                Hin Hdir Hf Himg) as Hkey.
  destruct (dict_get_elem_of _ _ Hkey) as (files & Hget & Hel).
  exists files. unfold Scan._discover_categories. rewrite Hroot. cbn [negb].
  split; [done|].
  apply scan_fold_sound in Hel as [Hnil|(_ & _ & Hfiles & _)];
    [by apply not_elem_of_nil in Hnil|].
  cbn in Hfiles. rewrite Hfiles. by apply list_elem_of_filter.
Qed.

(** X22. Nothing is missed: a directory listed under the root that holds
    a name with an image extension is reported, and that name is among its
    files. *)
Theorem discovered_categories_complete (fs : Scan.FileSystem)
    (root entry f : string) :
  Scan.isdir fs root = true →
  entry ∈ Scan.listdir fs root →
  Scan.isdir fs (Scan.path_join root entry) = true →
  f ∈ Scan.listdir fs (Scan.path_join root entry) →
  Scan.is_image_name f = true →
  ∃ files,
    dict_get (Scan._discover_categories fs root) entry = Some files
    ∧ f ∈ files
    ∧ files = filter (λ f, Scan.is_image_name f = true)
                (Scan.listdir fs (Scan.path_join root entry)).
Proof.
  intros Hroot Hin Hdir Hf Himg.
  destruct (discovered_complete_aux fs root entry f Hroot Hin Hdir Hf Himg)
    as (files & Hget & Hfiles).
  exists files. split; [done|]. split; [done|].
  assert (entry ∈ (Scan._discover_categories fs root).*1) as Hkey.
  { clear -Hget. induction (Scan._discover_categories fs root)
      as [|[k v] d IH]; cbn in *; [done|].
    case_decide; [subst; by left|]. right. by apply IH. }
  destruct (dict_get_elem_of _ _ Hkey) as (files' & Hget' & Hel).
  assert (files' = files) as -> by congruence.
  unfold Scan._discover_categories in Hel. rewrite Hroot in Hel.
  cbn [negb] in Hel.
  by apply scan_fold_sound in Hel as [Hnil%not_elem_of_nil|(_ & _ & ? & _)].
Qed.

Lemma discovered_categories_complete_witness :
  ∃ files,
    dict_get (Scan._discover_categories Demo.tree "/srv/img") "cat_illusion"
    = Some files
    ∧ "two.jpeg" ∈ files
    ∧ files = filter (λ f, Scan.is_image_name f = true)
                (Scan.listdir Demo.tree
                   (Scan.path_join "/srv/img" "cat_illusion")).
Proof.
  apply (discovered_categories_complete Demo.tree "/srv/img" "cat_illusion"
           "two.jpeg"); try by vm_compute.
  - cbn. right. by left.
  - cbn. right. right. by left.
Defined.

Lemma discovered_empty_iff (fs : Scan.FileSystem) (root : string) :
  Scan._discover_categories fs root = []
  ↔ Scan.isdir fs root = false
    ∨ ∀ entry f,
        entry ∈ Scan.listdir fs root →
        Scan.isdir fs (Scan.path_join root entry) = true →
        f ∈ Scan.listdir fs (Scan.path_join root entry) →
        Scan.is_image_name f = false.
Proof.
  split.
  - intros Hnil. destruct (Scan.isdir fs root) eqn:Hroot; [|by left].
    right. intros entry f Hin Hdir Hf.
    destruct (Scan.is_image_name f) eqn:Himg; [|done].
    destruct (discovered_complete_aux fs root entry f Hroot Hin Hdir Hf Himg)
      as (files & Hget & _).
    by rewrite Hnil in Hget.
  - intros [Hroot|Hnone].
    + unfold Scan._discover_categories. by rewrite Hroot.
    + destruct (Scan._discover_categories fs root) as [|[cat files] rest]
        eqn:Hd; [done|]. exfalso.
      assert ((cat, files) ∈ Scan._discover_categories fs root) as Hin
        by (rewrite Hd; by left).
      unfold Scan._discover_categories in Hin.
      destruct (Scan.isdir fs root); cbn [negb] in Hin;
        [|by apply not_elem_of_nil in Hin].
      apply scan_fold_sound in Hin as [Hnil|(Hcat & Hdir & Hfiles & Hne)];
        [by apply not_elem_of_nil in Hnil|].
      cbn in Hcat, Hdir, Hfiles, Hne. apply Hne. rewrite Hfiles.
      apply filter_none. intros f Hf. rewrite (Hnone cat f Hcat Hdir Hf).
      done.
Qed.

(** X23. The service has nothing to show exactly when the root is not a
    directory or no directory listed under it holds a name with an image
    extension: [api_captcha], run on the scanned catalog, then answers the
    error "No categories with images found." and changes neither the store
    nor the entropy source; in every other case it does not answer an
    error. *)
Theorem no_images_no_puzzle (D : Z) (fs : Scan.FileSystem) (root : string)
    (now : Q) (σ : gmap string PuzzleRecord) (e : Entropy) :
  api_captcha D (Scan._discover_categories fs root) now σ e
  = Ok ((CaptchaError "No categories with images found.", σ), e)
  ↔ Scan.isdir fs root = false
    ∨ ∀ entry f,
        entry ∈ Scan.listdir fs root →
        Scan.isdir fs (Scan.path_join root entry) = true →
        f ∈ Scan.listdir fs (Scan.path_join root entry) →
        Scan.is_image_name f = false.
Proof.
  rewrite <- discovered_empty_iff.
  destruct (Scan._discover_categories fs root) as [|c cs]; [done|].
  split; [|done]. unfold api_captcha. unfold mbind, M_bind.
  destruct (build_puzzle D (c :: cs) now e) as [[p e']|]; [|done].
  by intros [=].
Qed.

(** X24. When the file system lists no name twice in a directory and the
    names under the root hold no ["/"], the scanned catalog is well formed:
    distinct categories, each with a non-empty list of distinct files; and
    [api_captcha] run on it never raises. *)
Theorem discovered_catalog_is_well_formed (D : Z) (fs : Scan.FileSystem)
    (root : string) (now : Q) (σ : gmap string PuzzleRecord) (e : Entropy) :
  (∀ path, NoDup (Scan.listdir fs path)) →
  Forall (λ name, has_slash name = false) (Scan.listdir fs root) →
  catalog_ok (Scan._discover_categories fs root)
  ∧ ∃ r, api_captcha D (Scan._discover_categories fs root) now σ e = Ok r.
Proof.
  intros Hnd Hnames.
  assert (catalog_ok (Scan._discover_categories fs root)) as Hok.
  { unfold Scan._discover_categories.
    destruct (Scan.isdir fs root); cbn [negb]; [|by split; constructor].
    split.
    - apply scan_fold_NoDup. constructor.
    - apply Forall_forall. intros x Hx.
      apply scan_fold_sound in Hx as [Hnil|(Hin & _)];
        [by apply not_elem_of_nil in Hnil|].
      apply (proj1 (Forall_forall _ _) Hnames _ Hin).
    - apply Forall_forall. intros x Hx.
      apply scan_fold_sound in Hx as [Hnil|(_ & _ & Hfiles & Hne)];
        [by apply not_elem_of_nil in Hnil|].
      split; [done|]. rewrite Hfiles. by apply NoDup_filter. }
  split; [done|].
  destruct (Scan._discover_categories fs root) as [|c cs] eqn:Hd.
  - by eexists.
  - destruct (build_puzzle_run D (c :: cs) now e) as (p & e' & files & Hp & _);
      [done|done|].
    eexists. by apply api_captcha_run.
Qed.

Lemma tree_lists_distinct_names : ∀ path, NoDup (Scan.listdir Demo.tree path).
Proof.
  intros path. cbn. repeat case_bool_decide; try constructor; compute_done.
Qed.

Lemma discovered_catalog_is_well_formed_witness :
  catalog_ok (Scan._discover_categories Demo.tree "/srv/img")
  ∧ ∃ r, api_captcha DEMO_DIFFICULTY
           (Scan._discover_categories Demo.tree "/srv/img") (1000 # 1)%Q ∅
           Demo.entropy = Ok r.
Proof.
  apply (discovered_catalog_is_well_formed DEMO_DIFFICULTY Demo.tree
           "/srv/img" (1000 # 1)%Q ∅ Demo.entropy).
  - exact tree_lists_distinct_names.
  - by repeat constructor.
Defined.

(** ** Image names *)

Lemma lacks_cons (c a : ascii) (s : string) :
  lacks c (String a s) = true ↔ a ≠ c ∧ lacks c s = true.
Proof.
  unfold lacks. cbn [all_chars]. rewrite andb_true_iff, negb_true_iff.
  by rewrite bool_decide_eq_false.
Qed.

Lemma lacks_app (c : ascii) (s1 s2 : string) :
  lacks c (s1 +:+ s2) = true ↔ lacks c s1 = true ∧ lacks c s2 = true.
Proof.
  induction s1 as [|a s1 IH]; [by cbn; intuition|].
  change (String a s1 +:+ s2) with (String a (s1 +:+ s2)).
  rewrite !lacks_cons, IH. tauto.
Qed.

Lemma rfind_from_absent (c : ascii) (s : string) (i last : Z) :
  lacks c s = true → Scan.rfind_from c s i last = last.
Proof.
  revert i last. induction s as [|a s IH]; intros i last; [done|].
  intros [Ha Hs]%lacks_cons. cbn.
  destruct (Ascii.ascii_dec a c); [done|]. by apply IH.
Qed.

Lemma rfind_from_app (c : ascii) (s1 s2 : string) (i last : Z) :
  Scan.rfind_from c (s1 +:+ s2) i last
  = Scan.rfind_from c s2 (i + Z.of_nat (String.length s1))
      (Scan.rfind_from c s1 i last).
Proof.
  revert i last. induction s1 as [|a s1 IH]; intros i last.
  - cbn. by rewrite Z.add_0_r.
  - change (String a s1 +:+ s2) with (String a (s1 +:+ s2)).
    cbn [Scan.rfind_from String.length]. rewrite IH. f_equal. lia.
Qed.

Lemma string_length_app (s1 s2 : string) :
  String.length (s1 +:+ s2) = String.length s1 + String.length s2.
Proof.
  induction s1 as [|a s1 IH]; [done|].
  change (String a s1 +:+ s2) with (String a (s1 +:+ s2)).
  cbn. by rewrite IH.
Qed.

Lemma substring_all (s : string) : String.substring 0 (String.length s) s = s.
Proof. induction s as [|a s IH]; [done|]. cbn. by rewrite IH. Qed.

Lemma substring_app_r (s1 s2 : string) :
  String.substring (String.length s1) (String.length s2) (s1 +:+ s2) = s2.
Proof.
  induction s1 as [|a s1 IH]; [apply substring_all|].
  change (String a s1 +:+ s2) with (String a (s1 +:+ s2)). by cbn.
Qed.

(** The extension of [stem.rest] when neither part holds a dot or a
    slash: none for an empty stem, [.rest] otherwise. *)
Lemma splitext_simple (stem rest : string) :
  lacks "." stem = true → lacks "/" stem = true →
  lacks "." rest = true → lacks "/" rest = true →
  Scan.splitext_ext (stem +:+ "." +:+ rest)
  = if decide (stem = "") then "" else "." +:+ rest.
Proof.
  intros Hd1 Hs1 Hd2 Hs2. unfold Scan.splitext_ext.
  assert (Scan.rfind "/" (stem +:+ "." +:+ rest) = (-1)%Z) as ->.
  { apply rfind_from_absent. apply lacks_app. split; [done|].
    by apply lacks_cons. }
  assert (Scan.rfind "." (stem +:+ "." +:+ rest)
          = Z.of_nat (String.length stem)) as ->.
  { unfold Scan.rfind. rewrite rfind_from_app.
    change ("." +:+ rest) with (String "." rest).
    cbn [Scan.rfind_from]. destruct (Ascii.ascii_dec "." "."); [|done].
    by rewrite rfind_from_absent. }
  cbv zeta. rewrite decide_True by lia.
  rewrite Nat2Z.id, string_length_app.
  replace (String.length stem + String.length ("." +:+ rest)
           - String.length stem)
    with (String.length ("." +:+ rest)) by lia.
  rewrite substring_app_r.
  destruct stem as [|a stem]; [done|].
  rewrite decide_False by done.
  apply lacks_cons in Hd1 as [Ha _].
  replace (Z.of_nat (String.length (String a stem)) - (-1 + 1))%Z
    with (Z.succ (Z.of_nat (String.length stem))) by (cbn; lia).
  change (-1 + 1)%Z with 0%Z. rewrite seqZ_cons by lia.
  cbn [existsb]. unfold Scan.not_dot_at at 1.
  change (String a stem +:+ "." +:+ rest)
    with (String a (stem +:+ "." +:+ rest)).
  change (Z.to_nat 0) with 0. cbn [String.get].
  by rewrite bool_decide_eq_false_2.
Qed.

(** X25. For a name [stem.rest] whose two parts hold no dot and no slash,
    the scan takes the file exactly when the stem is not empty (a hidden
    file such as ".png" has no extension) and [.rest], with A-Z lowered,
    is one of ".png", ".jpg", ".jpeg", ".webp". *)
Theorem simple_name_is_image_iff (stem rest : string) :
  lacks "." stem = true → lacks "/" stem = true →
  lacks "." rest = true → lacks "/" rest = true →
  Scan.is_image_name (stem +:+ "." +:+ rest) = true
  ↔ stem ≠ ""
    ∧ Scan.str_lower ("." +:+ rest) ∈ [".png"; ".jpg"; ".jpeg"; ".webp"].
Proof.
  intros Hd1 Hs1 Hd2 Hs2. unfold Scan.is_image_name.
  rewrite (splitext_simple stem rest Hd1 Hs1 Hd2 Hs2), bool_decide_eq_true.
  unfold Scan.IMAGE_EXTENSIONS. case_decide as Hstem.
  - split; [|by intros [? _]]. cbn. rewrite !elem_of_cons, elem_of_nil.
    by intros [?|[?|[?|[?|?]]]].
  - by split; [|intros [_ ?]].
Qed.

Lemma simple_name_is_image_iff_witness :
  Scan.is_image_name ("Photo-1" +:+ "." +:+ "JpEg") = true
  ↔ "Photo-1" ≠ ""
    ∧ Scan.str_lower ("." +:+ "JpEg") ∈ [".png"; ".jpg"; ".jpeg"; ".webp"].
Proof.
  apply (simple_name_is_image_iff "Photo-1" "JpEg"); by vm_compute.
Defined.

Lemma rfind_from_lower_bound (c : ascii) (s : string) (i last : Z) :
  (0 ≤ i)%Z → (-1 ≤ last)%Z → (-1 ≤ Scan.rfind_from c s i last)%Z.
Proof.
  revert i last. induction s as [|a s IH]; intros i last Hi Hl; [done|].
  cbn. apply IH; [lia|]. destruct (Ascii.ascii_dec a c); lia.
Qed.

(** X26. A name without a dot is never taken as an image. *)
Theorem name_without_dot_is_no_image (f : string) :
  lacks "." f = true → Scan.is_image_name f = false.
Proof.
  intros Hf. unfold Scan.is_image_name, Scan.splitext_ext.
  assert (Scan.rfind "." f = (-1)%Z) as -> by (by apply rfind_from_absent).
  cbv zeta. rewrite decide_False; [by vm_compute|].
  pose proof (rfind_from_lower_bound "/" f 0 (-1)) as Hge.
  unfold Scan.rfind. lia.
Qed.

Lemma name_without_dot_is_no_image_witness :
  Scan.is_image_name "png" = false.
Proof. apply (name_without_dot_is_no_image "png"). by vm_compute. Defined.

(** ** The display label *)

Lemma startswith_cons_ne (c c0 : ascii) (s old : string) :
  c ≠ c0 → startswith (String c s) (String c0 old) = false.
Proof.
  intros Hne. unfold startswith. cbn [String.prefix].
  destruct (Ascii.ascii_dec c0 c); [congruence|done].
Qed.

Lemma startswith_one (c : ascii) (s : string) :
  startswith (String c s) (String c "") = true.
Proof.
  unfold startswith. cbn [String.prefix].
  destruct (Ascii.ascii_dec c c); [by destruct s|done].
Qed.

(** Replacing a text whose first character does not occur changes
    nothing. *)
Lemma replace_from_absent (c0 : ascii) (old new s : string) :
  lacks c0 s = true → Scan.replace_from (String c0 old) new s 0 = s.
Proof.
  induction s as [|c s IH]; [done|]. intros [Hc Hs]%lacks_cons.
  cbn [Scan.replace_from]. rewrite startswith_cons_ne by done.
  by rewrite IH.
Qed.

Lemma replace_underscore_lacks (s : string) (skip : nat) :
  lacks "_" (Scan.replace_from "_" " " s skip) = true.
Proof.
  revert skip. induction s as [|c s IH]; intros skip; [done|].
  cbn [Scan.replace_from]. destruct skip as [|k]; [|apply IH].
  destruct (decide (c = "_"%char)) as [->|Hc].
  - rewrite startswith_one. cbn [String.length Nat.sub].
    change (" " +:+ ?x) with (String " " x).
    apply lacks_cons. split; [done|apply IH].
  - rewrite startswith_cons_ne by done.
    apply lacks_cons. split; [done|apply IH].
Qed.

(** X27. The display label never contains an underscore, whatever the
    category name. *)
Theorem display_label_has_no_underscore (target_category : string) :
  lacks "_" (Scan.display_label target_category) = true.
Proof. unfold Scan.display_label. apply replace_underscore_lacks. Qed.

Lemma replace_suffix_removed (name : string) :
  lacks "_" name = true →
  Scan.replace_from "_illusion" "" (name +:+ "_illusion") 0 = name.
Proof.
  induction name as [|c name IH]; [by vm_compute|].
  intros [Hc Hs]%lacks_cons.
  change (String c name +:+ "_illusion")
    with (String c (name +:+ "_illusion")).
  cbn [Scan.replace_from]. rewrite startswith_cons_ne by done.
  by rewrite IH.
Qed.

(** X28. For a name without underscores, the label of the name and the
    label of the name followed by "_illusion" are both the name itself. *)
Theorem display_label_strips_illusion (name : string) :
  lacks "_" name = true →
  Scan.display_label (name +:+ "_illusion") = name
  ∧ Scan.display_label name = name
  ∧ Scan.prompt (name +:+ "_illusion")
    = "Which images contain " +:+ name +:+ "?".
Proof.
  intros Hname.
  assert (Scan.display_label (name +:+ "_illusion") = name) as Hl.
  { unfold Scan.display_label, Scan.str_replace.
    rewrite (replace_suffix_removed name Hname).
    by apply replace_from_absent. }
  split; [done|]. split.
  - unfold Scan.display_label, Scan.str_replace.
    rewrite (replace_from_absent "_" "illusion" "" name Hname).
    by apply replace_from_absent.
  - unfold Scan.prompt. by rewrite Hl.
Qed.

Lemma display_label_strips_illusion_witness :
  Scan.display_label ("zebra" +:+ "_illusion") = "zebra"
  ∧ Scan.display_label "zebra" = "zebra"
  ∧ Scan.prompt ("zebra" +:+ "_illusion")
    = "Which images contain " +:+ "zebra" +:+ "?".
Proof. apply (display_label_strips_illusion "zebra"). by vm_compute. Defined.
